(** * NIRTorch: graph executor, IR reconstruction and IR extraction

    A shallow embedding of [nirtorch/from_nir.py] and [nirtorch/to_nir.py].
    Python dictionaries whose iteration order is observed are association
    lists; the two dictionaries of [GraphExecutorState] and the executor's
    [stateful_modules] are finite maps.  Exceptions are the [Raise] results of
    an error monad.  The calls an executor makes to its units are collected
    in a log next to the result, so that what a unit receives can be stated. *)

From Stdlib Require Import Ascii.
From stdpp Require Import gmap strings list fin_maps pretty.

(** ** Python exceptions and results *)

Inductive exn : Type :=
| ValueError (msg : string)
| KeyError (key : string)
| IndexError
| TypeError
| AttributeError (attr : string)
| AssertionError (msg : string)
| RuntimeError
| UnboundLocalError (var : string).

Inductive result (A : Type) : Type :=
| Ok (a : A)
| Raise (e : exn).

Arguments Ok {A} a.
Arguments Raise {A} e.

Definition bindR {A B : Type} (m : result A) (k : A → result B) : result B :=
  match m with
  | Ok a => k a
  | Raise e => Raise e
  end.

Declare Scope result_scope.
Delimit Scope result_scope with result.
Notation "'let!' x ':=' m 'in' k" := (bindR m (fun x => k))
  (at level 10, x pattern, m at level 100, k at level 200) : result_scope.
Open Scope result_scope.

(** [d[k]] on a dictionary: a missing key raises [KeyError]. *)
Definition getitem {V : Type} (d : gmap string V) (k : string) : result V :=
  match d !! k with
  | Some v => Ok v
  | None => Raise (KeyError k)
  end.

(** [k in d]. *)
Definition contains {V : Type} (d : gmap string V) (k : string) : bool :=
  bool_decide (is_Some (d !! k)).

(** Dictionaries whose order of insertion is observed ([.items()],
    [.keys()]): association lists with at most one entry per key. *)
Fixpoint dict_set {V : Type} (d : list (string * V)) (k : string) (v : V)
  : list (string * V) :=
  match d with
  | [] => [(k, v)]
  | (k', v') :: d' =>
      if String.eqb k' k then (k, v) :: d' else (k', v') :: dict_set d' k v
  end.

Fixpoint dict_get {V : Type} (d : list (string * V)) (k : string) : option V :=
  match d with
  | [] => None
  | (k', v) :: d' => if String.eqb k' k then Some v else dict_get d' k
  end.

Definition dict_in {V : Type} (d : list (string * V)) (k : string) : bool :=
  match dict_get d k with Some _ => true | None => false end.

Definition dict_getitem {V : Type} (d : list (string * V)) (k : string)
  : result V :=
  match dict_get d k with
  | Some v => Ok v
  | None => Raise (KeyError k)
  end.

(** [sub in s] on strings. *)
Fixpoint str_in (sub s : string) : bool :=
  String.prefix sub s ||
  match s with
  | EmptyString => false
  | String _ s' => str_in sub s'
  end.

(** ** Tensors and Python values

    The executor is independent of the numbers a tensor holds: scalars and
    their addition are left open.  A tensor is its shape and the flat list of
    its entries. *)

Class Scalar : Type := {
  scalar : Type;
  sadd : scalar → scalar → scalar
}.

Record tensor `{Scalar} : Type := Tensor {
  shape : list nat;
  entries : list scalar
}.

Arguments Tensor {_} shape entries.
Arguments shape {_} t.
Arguments entries {_} t.

(** What a unit receives and returns: a tensor, or a tuple of values. *)
#[warnings="-register-all"]
Inductive value `{Scalar} : Type :=
| VTensor (t : tensor)
| VTuple (vs : list value).

Arguments VTensor {_} t.
Arguments VTuple {_} vs.

Definition tensor_add `{Scalar} (a b : list scalar) : list scalar :=
  zip_with sadd a b.

(** [torch.stack(ts).sum(0)]: [stack] wants at least one tensor and equal
    shapes; the sum over the new leading dimension adds entry by entry. *)
Definition torch_stack_sum0 `{Scalar} (ts : list tensor) : result tensor :=
  match ts with
  | [] => Raise RuntimeError
  | t :: rest =>
      if forallb (fun t' => bool_decide (shape t' = shape t)) rest
      then Ok (Tensor (shape t) (foldl tensor_add (entries t) (entries <$> rest)))
      else Raise RuntimeError
  end.

(** [torch.stack] accepts tensors only. *)
Fixpoint as_tensors `{Scalar} (vs : list value) : result (list tensor) :=
  match vs with
  | [] => Ok []
  | VTensor t :: vs' => let! ts := as_tensors vs' in Ok (t :: ts)
  | VTuple _ :: _ => Raise TypeError
  end.

Definition stack_sum0 `{Scalar} (vs : list value) : result value :=
  let! ts := as_tensors vs in
  let! t := torch_stack_sum0 ts in
  Ok (VTensor t).

(** Subscripts on the result of a unit.  Line 105 of [from_nir.py] takes the
    result of a stateful unit to be a tuple; a bare tensor in that place is
    outside this model and is reported as a [TypeError]. *)
Definition tuple_items `{Scalar} (out : value) : result (list value) :=
  match out with
  | VTuple vs => Ok vs
  | VTensor _ => Raise TypeError
  end.

(** [out[0]] *)
Definition item0 `{Scalar} (out : value) : result value :=
  let! vs := tuple_items out in
  match vs with
  | v :: _ => Ok v
  | [] => Raise IndexError
  end.

(** [out[1:]] *)
Definition slice_from1 `{Scalar} (out : value) : result (list value) :=
  let! vs := tuple_items out in
  Ok (tail vs).

(** [l[-k]] for [k >= 1]. *)
Definition index_from_end {A : Type} (l : list A) (k : nat) : result A :=
  if bool_decide (k ≤ length l)
  then match l !! (length l - k) with
       | Some a => Ok a
       | None => Raise IndexError
       end
  else Raise IndexError.

(** ** Units, nodes and graphs

    A unit ([torch.nn.Module]) is known to the executor through its identity
    (units are dictionary keys), the text of its class, the number of
    parameters of its [forward], its [init_hidden] attribute when it has one,
    and its call. *)
Record Module `{Scalar} : Type := {
  mod_id : positive;
  class_str : string;
  class_name : string;
  forward_params : nat;
  init_hidden : option bool;
  children : list positive;
  call : list value → result value
}.

(** A [Node] of [nirtorch.graph].  The nodes an adjacency dictionary refers
    to are represented by their names. *)
Record Node `{Scalar} : Type := {
  name : string;
  elem : option Module;
  outgoing_nodes : list (string * list nat)
}.

(** The [Graph] class lives in [nirtorch/graph.py], which is not among the
    sources; a graph is the record of its attributes and of the answers of
    the methods the two files call. *)
Record Graph `{Scalar} : Type := {
  module_names : list (option Module * string);
  inputs : list Node;
  node_list : list Node;
  get_root : list Node;
  find_source_nodes_of : Node → list Node;
  module_output_types : option Module → option (list nat)
}.

(** The collaborators of the two files that are not among the sources:
    [utils.sanitize_name], [graph_utils.trace_execution], the checks of
    [torch.nn.Module.add_module] on the name of a child, the constructor and
    [add_edge] of [Graph], and the tracer [graph.extract_torch_graph] with the
    two filters applied to its result. *)
Class Collaborators `{Scalar} : Type := {
  sanitize_name : string → string;
  trace_execution : Node → (Node → list Node) → list Node;
  add_module : string → Module → result unit;
  Graph_init : list (option Module * string) → list string → Graph;
  add_edge : Graph → option Module → option Module → result Graph;
  extract_torch_graph : Module → tensor → option string → result Graph;
  ignore_tensors : Graph → Graph;
  ignore_submodules_of : Graph → list Module → Graph
}.

(** ** The executor *)

Record GraphExecutorState `{Scalar} : Type := {
  state : gmap string (list value);
  cache : gmap string value
}.

Definition GraphExecutorState_new `{Scalar} : GraphExecutorState :=
  {| state := ∅; cache := ∅ |}.

Record GraphExecutor `{Scalar} : Type := {
  graph : Graph;
  stateful_modules : gmap string bool;
  execution_order : list Node
}.

(** One call of a unit: the node, the positional arguments in order, and
    what the unit returned. *)
Record Call `{Scalar} : Type := {
  c_node : string;
  c_args : list value;
  c_out : value
}.

(** Computations that call units: a result together with the calls made. *)
Definition M `{Scalar} (A : Type) : Type := result (A * list Call).

Definition retM `{Scalar} {A : Type} (a : A) : M A := Ok (a, []).

Definition bindM `{Scalar} {A B : Type} (m : M A) (k : A → M B) : M B :=
  match m with
  | Raise e => Raise e
  | Ok (a, l1) =>
      match k a with
      | Raise e => Raise e
      | Ok (b, l2) => Ok (b, l1 ++ l2)
      end
  end.

Definition liftM `{Scalar} {A : Type} (r : result A) : M A :=
  match r with
  | Ok a => Ok (a, [])
  | Raise e => Raise e
  end.

(** [node.elem( *inputs)] *)
Definition invoke `{Scalar} (node : Node) (inputs : list value) : M value :=
  match elem node with
  | None => Raise TypeError
  | Some unit =>
      match call unit inputs with
      | Ok out => Ok (out, [{| c_node := name node; c_args := inputs; c_out := out |}])
      | Raise e => Raise e
      end
  end.

Notation "'do!' x ':=' m 'in' k" := (bindM m (fun x => k))
  (at level 10, x pattern, m at level 100, k at level 200) : result_scope.

Definition _is_module_stateful `{Scalar} (module : Module) : result bool :=
  let arguments := forward_params module in
  if str_in "snntorch" (class_str module)
     && bool_decide (class_name module ∈ ["Synaptic"; "RSynaptic"; "Leaky"; "RLeaky"])
  then match init_hidden module with
       | Some b => Ok (negb b)
       | None => Raise (AttributeError "init_hidden")
       end
  else Ok (bool_decide (1 < arguments)).

Fixpoint instantiate_modules_items `{Collaborators}
    (items : list (option Module * string)) (stateful : gmap string bool)
  : result (gmap string bool) :=
  match items with
  | [] => Ok stateful
  | (None, _) :: rest => instantiate_modules_items rest stateful
  | (Some mod_, name) :: rest =>
      let! _ := add_module (sanitize_name name) mod_ in
      let! b := _is_module_stateful mod_ in
      instantiate_modules_items rest (<[sanitize_name name := b]> stateful)
  end.

Definition instantiate_modules `{Collaborators} (graph : Graph)
  : result (gmap string bool) :=
  instantiate_modules_items (module_names graph) ∅.

(** [lambda n: n.outgoing_nodes.keys()], the names resolved in the graph. *)
Definition outgoing_keys `{Scalar} (graph : Graph) (n : Node) : list Node :=
  omap (fun '(nm, _) => list_find (fun n' => name n' = nm) (node_list graph)
                        ≫= fun '(_, n') => Some n')
       (outgoing_nodes n).

Definition get_execution_order `{Collaborators} (graph : Graph)
  : result (list Node) :=
  let inputs := inputs graph in
  if bool_decide (length inputs ≠ 1)
  then Raise (ValueError ("Currently, only one input is supported, but "
                          +:+ pretty (length inputs) +:+ " was given"))
  else match inputs !! 0 with
       | Some input => Ok (trace_execution input (outgoing_keys graph))
       | None => Raise IndexError
       end.

(** [GraphExecutor.__init__] *)
Definition GraphExecutor_init `{Collaborators} (graph : Graph)
  : result GraphExecutor :=
  let! stateful := instantiate_modules graph in
  let! order := get_execution_order graph in
  if bool_decide (length order = 0)
  then Raise (ValueError "Graph is empty")
  else Ok {| graph := graph; stateful_modules := stateful;
             execution_order := order |}.

Definition get_input_nodes `{Scalar} (self : GraphExecutor) : list Node :=
  get_root (graph self).

(** The loop of [_apply_module] over [input_nodes] (lines 88 to 95): the
    value of a source node comes from the cache of this pass when it is
    there, else from the cache of the previous pass when it is there. *)
Fixpoint sum_recurrence `{Scalar} (input_nodes : list Node)
    (new_state old_state : GraphExecutorState) (summed_inputs : list value)
  : list value :=
  match input_nodes with
  | [] => summed_inputs
  | input_node :: rest =>
      sum_recurrence rest new_state old_state
        (if negb (contains (cache new_state) (name input_node))
            && contains (cache old_state) (name input_node)
         then summed_inputs ++ option_list (cache old_state !! name input_node)
         else if contains (cache new_state) (name input_node)
         then summed_inputs ++ option_list (cache new_state !! name input_node)
         else summed_inputs)
  end.

(** Lines 81 to 102: the positional arguments of the call. *)
Definition module_inputs `{Scalar} (self : GraphExecutor) (node : Node)
    (input_nodes : list Node) (new_state old_state : GraphExecutorState)
    (data : option value) : result (list value) :=
  let inputs :=
    if contains (stateful_modules self) (name node)
       && contains (state old_state) (name node)
    then default [] (state old_state !! name node)
    else [] in
  let summed_inputs :=
    sum_recurrence input_nodes new_state old_state (option_list data) in
  match summed_inputs with
  | [] => Raise (ValueError ("No inputs found for node " +:+ name node))
  | [v] => Ok (v :: inputs)
  | _ => let! s := stack_sum0 summed_inputs in Ok (s :: inputs)
  end.

Definition is_rsynaptic `{Scalar} (unit : Module) : bool :=
  str_in "snntorch._neurons.rsynaptic.RSynaptic" (class_str unit).

(** [is_rsynaptic and not node.elem.init_hidden] *)
Definition rsynaptic_keeps_output `{Scalar} (node : Node) : result bool :=
  match elem node with
  | None => Ok false
  | Some unit =>
      if is_rsynaptic unit
      then match init_hidden unit with
           | Some b => Ok (negb b)
           | None => Raise (AttributeError "init_hidden")
           end
      else Ok false
  end.

Definition set_state `{Scalar} (st : GraphExecutorState) (k : string)
    (hidden : list value) : GraphExecutorState :=
  {| state := <[k := hidden]> (state st); cache := cache st |}.

Definition set_cache `{Scalar} (st : GraphExecutorState) (k : string)
    (out : value) : GraphExecutorState :=
  {| state := state st; cache := <[k := out]> (cache st) |}.

Definition _apply_module `{Scalar} (self : GraphExecutor) (node : Node)
    (input_nodes : list Node) (new_state old_state : GraphExecutorState)
    (data : option value) : M (value * GraphExecutorState) :=
  do! inputs := liftM (module_inputs self node input_nodes new_state old_state data) in
  do! out := invoke node inputs in
  do! keeps := liftM (rsynaptic_keeps_output node) in
  if keeps then
    if str_in "lif" (name node) then
      do! hidden := liftM (tuple_items out) in
      do! out0 := liftM (item0 out) in
      retM (out0, set_state new_state (name node) hidden)
    else Raise (AssertionError "this shouldnt happen..")
  else
    do! stateful := liftM (getitem (stateful_modules self) (name node)) in
    if (stateful : bool) then
      do! hidden := liftM (slice_from1 out) in
      do! out0 := liftM (item0 out) in
      retM (out0, set_state new_state (name node) hidden)
    else retM (out, new_state).

(** The loop of [forward] (lines 127 to 139). *)
Fixpoint forward_loop `{Scalar} (self : GraphExecutor) (data : value)
    (old_state : GraphExecutorState) (order : list Node)
    (new_state : GraphExecutorState) (first_node : bool)
  : M (GraphExecutorState * bool) :=
  match order with
  | [] => retM (new_state, first_node)
  | node :: rest =>
      let input_nodes := find_source_nodes_of (graph self) node in
      match elem node with
      | None => forward_loop self data old_state rest new_state first_node
      | Some _ =>
          do! (out, new_state) :=
            _apply_module self node input_nodes new_state old_state
              (if first_node then Some data else None) in
          forward_loop self data old_state rest
            (set_cache new_state (name node) out) false
      end
  end.

Definition forward `{Scalar} (self : GraphExecutor) (data : value)
    (old_state : option GraphExecutorState) : M (value * GraphExecutorState) :=
  let old_state := default GraphExecutorState_new old_state in
  do! (new_state, _) :=
    forward_loop self data old_state (execution_order self)
      GraphExecutorState_new true in
  match last (execution_order self) with
  | None => Raise (UnboundLocalError "node")
  | Some node =>
      do! node := liftM (if contains (cache new_state) (name node) then Ok node
                         else index_from_end (execution_order self) 2) in
      do! out := liftM (getitem (cache new_state) (name node)) in
      retM (out, new_state)
  end.

(** ** IR graphs *)

(** [nir.NIRGraph]: named nodes and edges between names.  [from_nir.py]
    also builds one whose nodes are units. *)
Record NIRGraphOf (N : Type) : Type := {
  nodes : list (string * N);
  edges : list (string * string)
}.

Arguments nodes {N} _.
Arguments edges {N} _.

(** An IR node.  [NotNIR] stands for an object that is no [nir.NIRNode],
    with its [name] attribute when it has one. *)
#[warnings="-register-all"]
Inductive NIRNode : Type :=
| Input (input_type : list nat)
| Output (output_type : list nat)
| NIRGraph (g : NIRGraphOf NIRNode)
| Leaf (id : positive)
| NotNIR (attr_name : option string).

Definition is_Input (node : NIRNode) : bool :=
  match node with Input _ => true | _ => false end.

Definition is_NIRNode (node : NIRNode) : bool :=
  match node with NotNIR _ => false | _ => true end.

(** ** IR to graph *)

(** Units as dictionary keys: equal when they are the same object. *)
Definition same_unit `{Scalar} (a b : option Module) : bool :=
  match a, b with
  | None, None => true
  | Some x, Some y => bool_decide (mod_id x = mod_id y)
  | _, _ => false
  end.

Fixpoint module_names_set `{Scalar} (d : list (option Module * string))
    (module : option Module) (nm : string) : list (option Module * string) :=
  match d with
  | [] => [(module, nm)]
  | (module', nm') :: d' =>
      if same_unit module' module then (module', nm) :: d'
      else (module', nm') :: module_names_set d' module nm
  end.

(** Lines 153 to 159. *)
Fixpoint add_edges `{Collaborators} (torch_graph : NIRGraphOf (option Module))
    (graph : Graph) (es : list (string * string)) : result Graph :=
  match es with
  | [] => Ok graph
  | (src, dst) :: rest =>
      let src :=
        if negb (dict_in (nodes torch_graph) src)
           && dict_in (nodes torch_graph) (src +:+ ".output")
        then src +:+ ".output" else src in
      let dst :=
        if negb (dict_in (nodes torch_graph) dst)
           && dict_in (nodes torch_graph) (dst +:+ ".input")
        then dst +:+ ".input" else dst in
      let! source := dict_getitem (nodes torch_graph) src in
      let! destination := dict_getitem (nodes torch_graph) dst in
      let! graph := add_edge graph source destination in
      add_edges torch_graph graph rest
  end.

Definition _mod_nir_to_graph `{Collaborators}
    (torch_graph : NIRGraphOf (option Module))
    (nir_nodes : list (string * NIRNode)) : result Graph :=
  let module_names :=
    foldl (fun d '(nm, module) => module_names_set d module nm) []
          (nodes torch_graph) in
  let inputs := (filter (fun '(_, node) => is_Input node = true) nir_nodes).*1 in
  let graph := Graph_init module_names inputs in
  add_edges torch_graph graph (edges torch_graph).

(** ** Model to IR *)

(** [np.delete(arr, obj)] for a list of positions: a position outside
    [-n .. n-1] raises, a negative one counts from the end. *)
Definition np_delete (arr : list nat) (obj : list Z) : result (list nat) :=
  let n := Z.of_nat (length arr) in
  if forallb (fun i => bool_decide (- n ≤ i < n)%Z) obj
  then let drop := (fun i => Z.to_nat (if bool_decide (i < 0)%Z then i + n else i)%Z) <$> obj in
       Ok ((filter (fun '(i, _) => i ∉ drop) (imap pair arr)).*2)
  else Raise IndexError.

(** [if ignore_dims: np.delete(shape, ignore_dims) else: shape] *)
Definition minus_ignored (arr : list nat) (ignore_dims : option (list Z))
  : result (list nat) :=
  match ignore_dims with
  | Some (d :: ds) => np_delete arr (d :: ds)
  | _ => Ok arr
  end.

(** Lines 70 to 76. *)
Fixpoint add_subgraph_nodes (node_name : string)
    (items : list (string * NIRNode)) (nir_nodes : list (string * NIRNode))
  : result (list (string * NIRNode)) :=
  match items with
  | [] => Ok nir_nodes
  | (k, v) :: rest =>
      if is_NIRNode v
      then add_subgraph_nodes node_name rest
             (dict_set nir_nodes (node_name +:+ "." +:+ k) v)
      else match v with
           | NotNIR (Some nm) =>
               add_subgraph_nodes node_name rest (dict_set nir_nodes nm v)
           | _ => Raise (AttributeError "name")
           end
  end.

(** The first loop (lines 65 to 88), over [enumerate(torch_graph.node_list)]. *)
Fixpoint convert_nodes `{Scalar} (model_map : option Module → NIRNode)
    (indexed : list (nat * Node)) (nir_nodes : list (string * NIRNode))
    (nir_edges : list (string * string))
  : result (list (string * NIRNode) * list (string * string)) :=
  match indexed with
  | [] => Ok (nir_nodes, nir_edges)
  | (indx, node) :: rest =>
      let mapped_node := model_map (elem node) in
      let! (nir_nodes, nir_edges) :=
        match mapped_node with
        | NIRGraph g =>
            let! nir_nodes := add_subgraph_nodes (name node) (nodes g) nir_nodes in
            Ok (nir_nodes,
                nir_edges ++ ((fun '(x, y) => (name node +:+ "." +:+ x,
                                               name node +:+ "." +:+ y)) <$> edges g))
        | _ => Ok (dict_set nir_nodes (name node) mapped_node, nir_edges)
        end in
      let nir_edges :=
        if bool_decide (indx = 0)
        then let keys := nir_nodes.*1 in
             nir_edges ++ zip (take (length keys - 1) keys) (drop 1 keys)
        else nir_edges in
      convert_nodes model_map rest nir_nodes nir_edges
  end.

(** The second loop (lines 91 to 106). *)
Fixpoint convert_edges `{Scalar} (torch_graph : Graph)
    (ignore_dims : option (list Z)) (node_list : list Node)
    (nir_nodes : list (string * NIRNode)) (nir_edges : list (string * string))
  : result (list (string * NIRNode) * list (string * string)) :=
  match node_list with
  | [] => Ok (nir_nodes, nir_edges)
  | node :: rest =>
      let nir_edges :=
        nir_edges ++ ((fun '(destination, _) => (name node, destination))
                      <$> outgoing_nodes node) in
      if bool_decide (length (outgoing_nodes node) = 0)
      then
        let out_name := "output" in
        let! recorded :=
          match module_output_types torch_graph (elem node) with
          | Some sh => Ok sh
          | None => Raise (KeyError (default "None" (class_str <$> elem node)))
          end in
        let! out_shape := minus_ignored recorded ignore_dims in
        let output_node := Output out_shape in
        convert_edges torch_graph ignore_dims rest
          (dict_set nir_nodes out_name output_node)
          (nir_edges ++ [(name node, out_name)])
      else convert_edges torch_graph ignore_dims rest nir_nodes nir_edges
  end.

(** Lines 36 to 46: the traced graph, tensors dropped and the submodules of
    the given units collapsed. *)
Definition traced_graph `{Collaborators} (model : Module)
    (sample_data : tensor) (model_name : option string)
    (ignore_submodules_of_ : option (list Module)) : result Graph :=
  let model_name :=
    if bool_decide (length (children model) ≠ 0) then None else model_name in
  let! torch_graph := extract_torch_graph model sample_data model_name in
  let torch_graph := ignore_tensors torch_graph in
  Ok match ignore_submodules_of_ with
     | Some l => ignore_submodules_of torch_graph l
     | None => torch_graph
     end.

(** [extract_nir_graph].  The order of [list(set(nir_edges))] is left open by
    Python; the model keeps one occurrence of each edge, and the statements
    about the result speak of membership only. *)
Definition extract_nir_graph `{Collaborators} (model : Module)
    (model_map : option Module → NIRNode) (sample_data : tensor)
    (model_name : option string)
    (ignore_submodules_of_ : option (list Module))
    (ignore_dims : option (list Z)) : result (NIRGraphOf NIRNode) :=
  let! torch_graph :=
    traced_graph model sample_data model_name ignore_submodules_of_ in
  let root_nodes := get_root torch_graph in
  if bool_decide (length root_nodes ≠ 1)
  then Raise (ValueError ("Currently, only one input is supported, but "
                          +:+ pretty (length root_nodes) +:+ " was given"))
  else
    let input_shape := shape sample_data in
    let! input_type := minus_ignored input_shape ignore_dims in
    let nir_nodes := [("input", Input input_type)] in
    let! (nir_nodes, nir_edges) :=
      convert_nodes model_map (imap pair (node_list torch_graph)) nir_nodes [] in
    let! (nir_nodes, nir_edges) :=
      convert_edges torch_graph ignore_dims (node_list torch_graph)
                    nir_nodes nir_edges in
    Ok {| nodes := nir_nodes; edges := remove_dups nir_edges |}.

(** ** Vocabulary of the statements *)

(** The value a source node contributes: the one of this pass when it has
    been produced, else the one of the previous pass. *)
Definition source_value `{Scalar} (new_state old_state : GraphExecutorState)
    (input_node : Node) : option value :=
  match cache new_state !! name input_node with
  | Some v => Some v
  | None => cache old_state !! name input_node
  end.

(** The loop of [forward] as the specification words it: the external input
    goes to the node at position 0 of the execution order, and to no other. *)
Fixpoint forward_loop_by_position `{Scalar} (self : GraphExecutor)
    (data : value) (old_state : GraphExecutorState) (position : nat)
    (order : list Node) (new_state : GraphExecutorState)
  : M GraphExecutorState :=
  match order with
  | [] => retM new_state
  | node :: rest =>
      match elem node with
      | None =>
          forward_loop_by_position self data old_state (S position) rest new_state
      | Some _ =>
          do! (out, new_state) :=
            _apply_module self node (find_source_nodes_of (graph self) node)
              new_state old_state
              (if bool_decide (position = 0) then Some data else None) in
          forward_loop_by_position self data old_state (S position) rest
            (set_cache new_state (name node) out)
      end
  end.

(** Entry [i] of the sum of the tensors [ts]. *)
Definition entry_sum `{Scalar} (ts : list tensor) (i : nat) : option scalar :=
  match ts with
  | [] => None
  | t :: rest =>
      foldl (fun acc t' => a ← acc; b ← entries t' !! i; Some (sadd a b))
            (entries t !! i) rest
  end.

Definition has_unit `{Scalar} (n : Node) : bool :=
  match elem n with Some _ => true | None => false end.

(** The names under which a pass over [order] caches values. *)
Definition cached_names `{Scalar} (order : list Node) : list string :=
  name <$> filter (fun n => has_unit n = true) order.

(** No stateful node: no unit is registered as stateful, and no node of the
    order is an RSynaptic unit that keeps its hidden values outside. *)
Definition stateless `{Scalar} (self : GraphExecutor) : bool :=
  forallb (fun kb => negb kb.2) (map_to_list (stateful_modules self))
  && forallb (fun n => match rsynaptic_keeps_output n with
                       | Ok false => true
                       | _ => false
                       end) (execution_order self).

(** No feedback edge: when a node with a unit is visited, each of its
    source nodes that is cached at all in a pass has been cached already.
    [seen] are the names cached so far. *)
Fixpoint feed_forward_from `{Scalar} (self : GraphExecutor)
    (all seen : list string) (order : list Node) : bool :=
  match order with
  | [] => true
  | n :: rest =>
      (negb (has_unit n)
       || forallb (fun p => bool_decide (name p ∈ all → name p ∈ seen))
                  (find_source_nodes_of (graph self) n))
      && feed_forward_from self all
           (if has_unit n then name n :: seen else seen) rest
  end.

Definition feed_forward `{Scalar} (self : GraphExecutor) : bool :=
  feed_forward_from self (cached_names (execution_order self)) []
    (execution_order self).

(** A traced node with no outgoing edges. *)
Definition is_sink `{Scalar} (n : Node) : bool :=
  bool_decide (length (outgoing_nodes n) = 0).

(** The endpoints of an IR edge as the specification words them: an endpoint
    that names no node, while [endpoint.output] (for a source) or
    [endpoint.input] (for a destination) does, stands for that node; any
    other endpoint stands for itself. *)
Definition resolved_source {V : Type} (nodes : list (string * V))
    (src : string) : string :=
  if dict_in nodes src then src
  else if dict_in nodes (src +:+ ".output") then src +:+ ".output"
  else src.

Definition resolved_destination {V : Type} (nodes : list (string * V))
    (dst : string) : string :=
  if dict_in nodes dst then dst
  else if dict_in nodes (dst +:+ ".input") then dst +:+ ".input"
  else dst.

(** [graph.add_edge] on a list of pairs of units, in order. *)
Fixpoint add_edge_list `{Collaborators} (graph : Graph)
    (units : list (option Module * option Module)) : result Graph :=
  match units with
  | [] => Ok graph
  | (source, destination) :: rest =>
      let! graph := add_edge graph source destination in
      add_edge_list graph rest
  end.

(** ** Concrete units, graphs and collaborators

    Integer tensors, a few units and one instance of the collaborators, for
    running the definitions above on explicit inputs. *)

Module Examples.

Definition Z_scalar : Scalar := {| scalar := Z; sadd := Z.add |}.
#[local] Existing Instance Z_scalar.

Definition vec (l : list Z) : value := VTensor (Tensor [length l] l).

(** [torch.nn.Identity] *)
Definition identity (id : positive) : Module :=
  {| mod_id := id;
     class_str := "<class 'torch.nn.modules.linear.Identity'>";
     class_name := "Identity";
     forward_params := 1;
     init_hidden := None;
     children := [];
     call := fun args => match args with [x] => Ok x | _ => Raise TypeError end |}.

(** A unit with one hidden value: [forward(x, h=None)] returns [(y, y)]
    with [y = x] without [h] and [y = x + h] with it. *)
Definition integrator (id : positive) : Module :=
  {| mod_id := id;
     class_str := "<class 'Integrator'>";
     class_name := "Integrator";
     forward_params := 2;
     init_hidden := None;
     children := [];
     call := fun args =>
       match args with
       | [x] => Ok (VTuple [x; x])
       | [x; h] => let! y := stack_sum0 [x; h] in Ok (VTuple [y; y])
       | _ => Raise TypeError
       end |}.

Fixpoint dots_to_underscores (s : string) : string :=
  match s with
  | EmptyString => EmptyString
  | String c s' =>
      String (if Ascii.eqb c "."%char then "_"%char else c) (dots_to_underscores s')
  end.

(** Nodes in the order a breadth-first walk from the start meets them. *)
Fixpoint walk (fuel : nat) (succ : Node → list Node) (todo seen : list Node)
  : list Node :=
  match fuel, todo with
  | S fuel, n :: todo =>
      if bool_decide (name n ∈ name <$> seen) then walk fuel succ todo seen
      else walk fuel succ (todo ++ succ n) (seen ++ [n])
  | _, _ => seen
  end.

Definition sources_in (node_list : list Node) (node : Node) : list Node :=
  filter (fun m => name node ∈ (outgoing_nodes m).*1) node_list.

Definition graph_of (module_names : list (option Module * string))
    (input_names : list string) (node_list : list Node)
    (output_types : option Module → option (list nat)) : Graph :=
  {| module_names := module_names;
     inputs := filter (fun n => name n ∈ input_names) node_list;
     node_list := node_list;
     get_root := filter (fun n => sources_in node_list n = []) node_list;
     find_source_nodes_of := sources_in node_list;
     module_output_types := output_types |}.

Definition name_of (module_names : list (option Module * string))
    (unit : option Module) : result string :=
  match list_find (fun '(m, _) => same_unit m unit = true) module_names with
  | Some (_, (_, nm)) => Ok nm
  | None => Raise (KeyError "unit")
  end.

Definition connect (graph : Graph) (source destination : option Module)
  : result Graph :=
  let! s := name_of (module_names graph) source in
  let! d := name_of (module_names graph) destination in
  Ok (graph_of (module_names graph) (name <$> inputs graph)
        ((fun n => if bool_decide (name n = s)
                   then {| name := name n; elem := elem n;
                           outgoing_nodes := outgoing_nodes n ++ [(d, [])] |}
                   else n) <$> node_list graph)
        (module_output_types graph)).

(** The collaborators, for a tracer that answers [traced]. *)
Definition collaborators (traced : result Graph) : Collaborators :=
  {| sanitize_name := dots_to_underscores;
     trace_execution := fun start succ => walk 64 succ [start] [];
     add_module := fun _ _ => Ok ();
     Graph_init := fun module_names input_names =>
       graph_of module_names input_names
         ((fun '(m, nm) => {| name := nm; elem := m; outgoing_nodes := [] |})
            <$> module_names)
         (fun _ => None);
     add_edge := connect;
     extract_torch_graph := fun _ _ _ => traced;
     ignore_tensors := fun g => g;
     ignore_submodules_of := fun g _ => g |}.

Definition no_trace : Collaborators := collaborators (Raise RuntimeError).

(** An executor from units and edges, through [_mod_nir_to_graph]. *)
Definition executor_of (units : list (string * option Module))
    (es : list (string * string)) (nir_nodes : list (string * NIRNode))
  : result GraphExecutor :=
  let! g := @_mod_nir_to_graph _ no_trace {| nodes := units; edges := es |} nir_nodes in
  @GraphExecutor_init _ no_trace g.

(** input -> a -> b -> output, with the feedback edge b -> a. *)
Definition recurrent : result GraphExecutor :=
  executor_of
    [("input", Some (identity 1)); ("a", Some (identity 2));
     ("b", Some (identity 3)); ("output", Some (identity 4))]
    [("input", "a"); ("a", "b"); ("b", "a"); ("b", "output")]
    [("input", Input [2]); ("a", Leaf 2); ("b", Leaf 3); ("output", Output [2])].

(** input -> lif -> output, with a unit that keeps one hidden value. *)
Definition with_memory : result GraphExecutor :=
  executor_of
    [("input", Some (identity 1)); ("lif", Some (integrator 2));
     ("output", Some (identity 3))]
    [("input", "lif"); ("lif", "output")]
    [("input", Input [2]); ("lif", Leaf 2); ("output", Output [2])].

(** input -> a -> output, where the output boundary has no unit. *)
Definition open_ended : result GraphExecutor :=
  executor_of
    [("input", Some (identity 1)); ("a", Some (identity 2)); ("output", None)]
    [("input", "a"); ("a", "output")]
    [("input", Input [2]); ("a", Leaf 2); ("output", Output [2])].

(** A single boundary node without a unit. *)
Definition lonely : result GraphExecutor :=
  executor_of [("input", None)] [] [("input", Input [2])].

Definition boundary (nm : string) : Node :=
  {| name := nm; elem := None; outgoing_nodes := [] |}.

(** An executor whose order ends in two boundary nodes. *)
Definition two_boundaries : GraphExecutor :=
  let node_list := [boundary "x"; boundary "y"] in
  {| graph := graph_of [(None, "y")] ["x"] node_list (fun _ => None);
     stateful_modules := ∅;
     execution_order := node_list |}.

(** boundary -> a, where the node the order starts with has no unit. *)
Definition open_start : result GraphExecutor :=
  executor_of [("input", None); ("a", Some (identity 2))] [("input", "a")]
              [("input", Input [2]); ("a", Leaf 2)].

(** input -> x -> b, where the node in the middle has no unit. *)
Definition broken_chain : result GraphExecutor :=
  executor_of
    [("input", Some (identity 1)); ("x", None); ("b", Some (identity 3))]
    [("input", "x"); ("x", "b")]
    [("input", Input [2]); ("x", Leaf 2); ("b", Leaf 3)].

(** A graph without a declared input. *)
Definition no_input : result GraphExecutor :=
  executor_of [("a", Some (identity 1))] [] [("a", Leaf 1)].

(** Collaborators whose [trace_execution] finds no node. *)
Definition no_order : Collaborators :=
  {| sanitize_name := dots_to_underscores;
     trace_execution := fun _ _ => [];
     add_module := fun _ _ => Ok ();
     Graph_init := @Graph_init _ no_trace;
     add_edge := connect;
     extract_torch_graph := fun _ _ _ => Raise RuntimeError;
     ignore_tensors := fun g => g;
     ignore_submodules_of := fun g _ => g |}.

(** An IR whose edges go through the boundary of the subgraph ["sub"]. *)
Definition with_subgraph : NIRGraphOf (option Module) :=
  {| nodes := [("input", Some (identity 1)); ("sub.input", Some (identity 2));
               ("sub.output", Some (identity 3)); ("output", Some (identity 4))];
     edges := [("input", "sub"); ("sub.input", "sub.output"); ("sub", "output")] |}.

Definition traced_node (nm : string) (id : positive)
    (outgoing : list (string * list nat)) : Node :=
  {| name := nm; elem := Some (identity id); outgoing_nodes := outgoing |}.

Definition recorded_types (table : list (positive * list nat))
    (unit : option Module) : option (list nat) :=
  unit ≫= fun u => snd <$> list_find (fun e => e.1 = mod_id u) table ≫= fun e => Some e.2.

(** A traced model a -> b, a -> c: two nodes without outgoing edges, with
    recorded output shapes [1,3] and [1,5]. *)
Definition fan_out : Graph :=
  graph_of [(Some (identity 1), "a"); (Some (identity 2), "b");
            (Some (identity 3), "c")] []
    [traced_node "a" 1 [("b", [1; 4]); ("c", [1; 4])];
     traced_node "b" 2 []; traced_node "c" 3 []]
    (recorded_types [(1%positive, [1; 4]); (2%positive, [1; 3]);
                     (3%positive, [1; 5])]).

(** A traced model with two nodes and no edge: two roots. *)
Definition two_roots : Graph :=
  graph_of [(Some (identity 1), "a"); (Some (identity 2), "b")] []
    [traced_node "a" 1 []; traced_node "b" 2 []]
    (recorded_types [(1%positive, [1; 4]); (2%positive, [1; 4])]).

Definition model : Module :=
  {| mod_id := 9;
     class_str := "<class 'torch.nn.modules.container.Sequential'>";
     class_name := "Sequential";
     forward_params := 1;
     init_hidden := None;
     children := [1; 2; 3]%positive;
     call := fun _ => Raise RuntimeError |}.

Definition leaf_of (unit : option Module) : NIRNode :=
  Leaf (default 1%positive (mod_id <$> unit)).

Definition sample : tensor := Tensor [1; 4] [0; 0; 0; 0]%Z.

End Examples.

(** ** Loading an IR

    The rest of [from_nir.py]: the default units, the mapping of an IR to
    units, and [load]. *)

(** [torch.nn.Identity()].  Each call of the constructor makes a new
    object; [id] is the identity it gets. *)
Definition Identity `{Scalar} (id : positive) : Module :=
  {| mod_id := id;
     class_str := "<class 'torch.nn.modules.linear.Identity'>";
     class_name := "Identity";
     forward_params := 1;
     init_hidden := None;
     children := [];
     call := fun args => match args with [x] => Ok x | _ => Raise TypeError end |}.

Definition is_Output (node : NIRNode) : bool :=
  match node with Output _ => true | _ => false end.

(** [_switch_default_models]; [fresh] is the identity of the object it
    makes. *)
Definition _switch_default_models `{Scalar} (fresh : positive)
    (nir_graph : NIRNode) : option Module :=
  if is_Input nir_graph || is_Output nir_graph
  then Some (Identity fresh)
  else None.

(** The loop of [_switch_models_with_map] (lines 172 to 176).  Identities of
    new objects are taken from the counter [fresh]. *)
Fixpoint switch_nodes `{Scalar} (model_map : NIRNode → option Module)
    (items : list (string * NIRNode)) (nodes : list (string * option Module))
    (fresh : positive) : list (string * option Module) :=
  match items with
  | [] => nodes
  | (name, node) :: rest =>
      match model_map node with
      | Some mapped_module =>
          switch_nodes model_map rest
            (dict_set nodes name (Some mapped_module)) fresh
      | None =>
          match _switch_default_models fresh node with
          | Some mapped_module =>
              switch_nodes model_map rest
                (dict_set nodes name (Some mapped_module)) (Pos.succ fresh)
          | None =>
              switch_nodes model_map rest (dict_set nodes name None) fresh
          end
      end
  end.

(** [nir_graph.nodes] and [nir_graph.edges] exist on a [nir.NIRGraph]. *)
Definition as_NIRGraph (nir_graph : NIRNode) : result (NIRGraphOf NIRNode) :=
  match nir_graph with
  | NIRGraph g => Ok g
  | _ => Raise (AttributeError "nodes")
  end.

Definition _switch_models_with_map `{Scalar} (nir_graph : NIRNode)
    (model_map : NIRNode → option Module) (fresh : positive)
  : result (NIRGraphOf (option Module)) :=
  let! g := as_NIRGraph nir_graph in
  Ok {| nodes := switch_nodes model_map (nodes g) [] fresh; edges := edges g |}.

(** [load].  [nir_read] stands for [nir.read], which is not part of the
    sources. *)
Definition load `{Collaborators} (nir_read : string → result NIRNode)
    (nir_graph : NIRNode + string) (model_map : NIRNode → option Module)
    (fresh : positive) : result GraphExecutor :=
  let! nir_graph :=
    match nir_graph with
    | inr path => nir_read path
    | inl g => Ok g
    end in
  let! nir_module_graph := _switch_models_with_map nir_graph model_map fresh in
  let! g := as_NIRGraph nir_graph in
  let! graph := _mod_nir_to_graph nir_module_graph (nodes g) in
  GraphExecutor_init graph.

(** ** Vocabulary of the further statements *)

(** The key a unit is in a dictionary: its identity, or [None]. *)
Definition unit_key `{Scalar} (unit : option Module) : option positive :=
  mod_id <$> unit.

(** The dictionary [{module: name for name, module in nodes.items()}] of
    [_mod_nir_to_graph] (line 150). *)
Definition module_names_of `{Scalar} (nodes : list (string * option Module))
  : list (option Module * string) :=
  foldl (fun d '(nm, module) => module_names_set d module nm) [] nodes.

(** A node the map declines and that is an [Input] or an [Output]: the
    nodes for which [_switch_default_models] makes an object. *)
Definition gets_default `{Scalar} (model_map : NIRNode → option Module)
    (node : NIRNode) : bool :=
  match model_map node with
  | Some _ => false
  | None => is_Input node || is_Output node
  end.

(** The entries the loop of lines 70 to 76 writes for the nodes of a
    subgraph: an IR node under [unit.node], any other object under its own
    name. *)
Definition subgraph_entries (node_name : string)
    (items : list (string * NIRNode)) : list (string * NIRNode) :=
  omap (fun '(k, v) =>
          if is_NIRNode v then Some (node_name +:+ "." +:+ k, v)
          else match v with
               | NotNIR (Some nm) => Some (nm, v)
               | _ => None
               end) items.

(** The entries the first loop of [extract_nir_graph] writes for a traced
    node. *)
Definition written_entries `{Scalar} (model_map : option Module → NIRNode)
    (node : Node) : list (string * NIRNode) :=
  match model_map (elem node) with
  | NIRGraph sub => subgraph_entries (name node) (nodes sub)
  | mapped => [(name node, mapped)]
  end.

(** What a call leaves in the cache, and in the hidden state, of the pass:
    the result of a stateless unit as it is; the first component of the
    tuple of a stateful one, with the other components as hidden values
    ([keeps]: with all of them). *)
Definition recorded_by_call `{Scalar} (keeps stateful : bool) (raw : value)
  : option (value * option (list value)) :=
  if keeps || stateful
  then match raw with
       | VTuple (out :: rest) =>
           Some (out, Some (if keeps then out :: rest else rest))
       | _ => None
       end
  else Some (raw, None).

(** No traced unit is mapped to a subgraph. *)
Definition is_NIRGraph (node : NIRNode) : bool :=
  match node with NIRGraph _ => true | _ => false end.

(** ** Further concrete inputs *)

Module More_examples.

Import Examples.
#[local] Existing Instance Z_scalar.

(** A unit of snnTorch's RSynaptic class with [init_hidden = False]: it
    returns its output and two hidden values. *)
Definition rsynaptic (id : positive) : Module :=
  {| mod_id := id;
     class_str := "<class 'snntorch._neurons.rsynaptic.RSynaptic'>";
     class_name := "RSynaptic";
     forward_params := 4;
     init_hidden := Some false;
     children := [];
     call := fun args =>
       match args with
       | x :: _ => Ok (VTuple [x; x; x])
       | [] => Raise TypeError
       end |}.

(** A unit that fails when it is called. *)
Definition failing (id : positive) : Module :=
  {| mod_id := id;
     class_str := "<class 'Failing'>";
     class_name := "Failing";
     forward_params := 1;
     init_hidden := None;
     children := [];
     call := fun _ => Raise RuntimeError |}.

(** input -> sub.a: a node whose name has a dot. *)
Definition dotted : result GraphExecutor :=
  executor_of
    [("input", Some (identity 1)); ("sub.a", Some (identity 2))]
    [("input", "sub.a")]
    [("input", Input [2]); ("sub.a", Leaf 2)].

(** input -> rec, an RSynaptic unit on a node whose name has no "lif". *)
Definition recurrent_unit : result GraphExecutor :=
  executor_of
    [("input", Some (identity 1)); ("rec", Some (rsynaptic 2))]
    [("input", "rec")]
    [("input", Input [2]); ("rec", Leaf 2)].

(** input -> lif -> output with an RSynaptic unit. *)
Definition with_rsynaptic : result GraphExecutor :=
  executor_of
    [("input", Some (identity 1)); ("lif", Some (rsynaptic 2));
     ("output", Some (identity 3))]
    [("input", "lif"); ("lif", "output")]
    [("input", Input [2]); ("lif", Leaf 2); ("output", Output [2])].

(** input -> bad, a unit that raises. *)
Definition with_failure : result GraphExecutor :=
  executor_of
    [("input", Some (identity 1)); ("bad", Some (failing 2))]
    [("input", "bad")]
    [("input", Input [2]); ("bad", Leaf 2)].

(** An IR: Input -> affine -> Output, and a map that knows [Leaf 7] only. *)
Definition small_ir : NIRGraphOf NIRNode :=
  {| nodes := [("input", Input [2]); ("affine", Leaf 7); ("gap", Leaf 8);
               ("output", Output [2])];
     edges := [("input", "affine"); ("affine", "output")] |}.

Definition knows_7 (node : NIRNode) : option Module :=
  match node with
  | Leaf 7 => Some (integrator 7)
  | _ => None
  end.

(** The same IR with an edge from a name that no node has. *)
Definition dangling_ir : NIRGraphOf NIRNode :=
  {| nodes := nodes small_ir;
     edges := [("input", "affine"); ("ghost", "output")] |}.

(** A traced chain a -> b, mapped to plain IR nodes. *)
Definition chain : Graph :=
  graph_of [(Some (identity 1), "a"); (Some (identity 2), "b")] []
    [traced_node "a" 1 [("b", [1; 4])]; traced_node "b" 2 []]
    (recorded_types [(1%positive, [1; 4]); (2%positive, [1; 3])]).

(** A traced model of one unit, mapped to a subgraph of two nodes. *)
Definition one_block : Graph :=
  graph_of [(Some (identity 1), "block")] []
    [traced_node "block" 1 []]
    (recorded_types [(1%positive, [1; 4])]).

Definition to_subgraph (unit : option Module) : NIRNode :=
  NIRGraph {| nodes := [("w", Leaf 1); ("r", Leaf 2)]; edges := [("w", "r")] |}.

End More_examples.

(** * Properties *)

(** ** Results and logs *)

Section Results.
Context `{Scalar}.

Lemma bindR_Ok {A B : Type} (m : result A) (k : A → result B) (b : B) :
  bindR m k = Ok b ↔ ∃ a, m = Ok a ∧ k a = Ok b.
Proof.
  destruct m as [a|e]; simpl; split.
  - eauto.
  - by intros (a' & [= <-] & Hk).
  - done.
  - by intros (a' & ? & _).
Qed.

Lemma bindM_Ok {A B : Type} (m : M A) (k : A → M B) (b : B) (l : list Call) :
  bindM m k = Ok (b, l)
  ↔ ∃ a l1 l2, m = Ok (a, l1) ∧ k a = Ok (b, l2) ∧ l = l1 ++ l2.
Proof.
  unfold bindM. destruct m as [[a l1]|e]; split.
  - destruct (k a) as [[b' l2]|e] eqn:Hk; [|done].
    intros [= <- <-]. by exists a, l1, l2.
  - intros (a' & l1' & l2 & [= <- <-] & -> & ->). done.
  - done.
  - by intros (? & ? & ? & ? & _).
Qed.

Lemma bindM_Raise_l {A B : Type} (k : A → M B) (e : exn) :
  bindM (Raise e) k = Raise e.
Proof. done. Qed.

Lemma liftM_Ok {A : Type} (r : result A) (a : A) (l : list Call) :
  liftM r = Ok (a, l) ↔ r = Ok a ∧ l = [].
Proof.
  destruct r; simpl; split; try done.
  - by intros [= -> <-].
  - by intros [[= ->] ->].
  - by intros [? _].
Qed.

Lemma bindM_liftM_Ok {A B : Type} (a : A) (k : A → M B) :
  bindM (liftM (Ok a)) k = k a.
Proof. simpl. by destruct (k a) as [[b l]|e]. Qed.

Lemma bindM_liftM_inv {A B : Type} (r : result A) (k : A → M B) (b : B)
    (l : list Call) :
  bindM (liftM r) k = Ok (b, l) ↔ ∃ a, r = Ok a ∧ k a = Ok (b, l).
Proof.
  destruct r as [a|e].
  - rewrite bindM_liftM_Ok. split; [eauto|]. by intros (a' & [= <-] & ?).
  - split; [done|]. by intros (? & ? & _).
Qed.

Lemma bindM_assoc {A B C : Type} (m : M A) (f : A → M B) (g : B → M C) :
  bindM (bindM m f) g = bindM m (fun a => bindM (f a) g).
Proof.
  destruct m as [[a l1]|e]; [|done]. simpl.
  destruct (f a) as [[b l2]|e]; [|done]. simpl.
  destruct (g b) as [[c l3]|e]; [|done]. by rewrite app_assoc.
Qed.

Lemma bindM_ext {A B : Type} (m : M A) (f g : A → M B) :
  (∀ a l, m = Ok (a, l) → f a = g a) → bindM m f = bindM m g.
Proof.
  intros Hfg. destruct m as [[a l]|e]; [|done]. simpl. by rewrite (Hfg a l).
Qed.

Lemma bindM_retM_l {A B : Type} (a : A) (k : A → M B) :
  bindM (retM a) k = k a.
Proof. simpl. by destruct (k a) as [[b l]|e]. Qed.

Lemma contains_true {V : Type} (d : gmap string V) (k : string) :
  contains d k = true ↔ is_Some (d !! k).
Proof. unfold contains. by rewrite bool_decide_eq_true. Qed.

Lemma contains_false {V : Type} (d : gmap string V) (k : string) :
  contains d k = false ↔ d !! k = None.
Proof.
  unfold contains. rewrite bool_decide_eq_false. by rewrite eq_None_not_Some.
Qed.

Lemma getitem_Ok {V : Type} (d : gmap string V) (k : string) (v : V) :
  getitem d k = Ok v ↔ d !! k = Some v.
Proof.
  unfold getitem. destruct (d !! k); split; try done; by intros [= ->].
Qed.

End Results.

(** ** One pass of the executor *)

Section Executor_facts.
Context `{Scalar}.
Implicit Types (self : GraphExecutor) (node n : Node) (st new old : GraphExecutorState).
Implicit Types (log : list Call) (out raw : value).

Lemma forward_loop_app self data old pre post st f :
  forward_loop self data old (pre ++ post) st f =
  bindM (forward_loop self data old pre st f)
        (fun r : GraphExecutorState * bool =>
           forward_loop self data old post r.1 r.2).
Proof.
  revert st f. induction pre as [|n pre IH]; intros st f; simpl.
  { by destruct (forward_loop self data old post st f) as [[??]|?]. }
  destruct (elem n); [|apply IH].
  rewrite bindM_assoc. apply bindM_ext. intros [out st'] l _. apply IH.
Qed.

Lemma invoke_Ok node inputs raw log :
  invoke node inputs = Ok (raw, log) →
  log = [{| c_node := name node; c_args := inputs; c_out := raw |}]
  ∧ ∃ unit, elem node = Some unit ∧ call unit inputs = Ok raw.
Proof.
  unfold invoke. destruct (elem node) as [u|]; [|done].
  destruct (call u inputs) eqn:Hc; [|done]. intros [= <- <-]. eauto.
Qed.

Lemma item0_Ok raw out :
  item0 raw = Ok out ↔ ∃ rest, raw = VTuple (out :: rest).
Proof.
  unfold item0, tuple_items. destruct raw as [t|[|v vs]]; simpl; split;
    try done; try (by intros [? ?]).
  - intros [= ->]. eauto.
  - by intros [rest [= -> ->]].
Qed.

(** What a successful [_apply_module] did: one call, on the arguments of
    [module_inputs]; the cache untouched; the hidden values stored. *)
Lemma apply_module_Ok self node srcs new old data out new' log :
  _apply_module self node srcs new old data = Ok ((out, new'), log) →
  ∃ inputs raw keeps,
    module_inputs self node srcs new old data = Ok inputs
    ∧ log = [{| c_node := name node; c_args := inputs; c_out := raw |}]
    ∧ (∃ unit, elem node = Some unit ∧ call unit inputs = Ok raw)
    ∧ cache new' = cache new
    ∧ rsynaptic_keeps_output node = Ok keeps
    ∧ if keeps
      then ∃ rest, raw = VTuple (out :: rest)
                   ∧ state new' = <[name node := out :: rest]> (state new)
      else ∃ b : bool, stateful_modules self !! name node = Some b
                ∧ if b
                  then ∃ rest, raw = VTuple (out :: rest)
                               ∧ state new' = <[name node := rest]> (state new)
                  else out = raw ∧ new' = new.
Proof.
  unfold _apply_module. intros Hm.
  apply bindM_liftM_inv in Hm as (inputs & Hin & Hm).
  apply bindM_Ok in Hm as (raw & l1 & l3 & Hinv & Hm & ->).
  apply invoke_Ok in Hinv as [-> Hcall].
  apply bindM_liftM_inv in Hm as (keeps & Hk & Hm).
  exists inputs, raw, keeps. split; [done|].
  destruct keeps.
  - destruct (str_in "lif" (name node)); [|done].
    apply bindM_liftM_inv in Hm as (hidden & Hh & Hm).
    apply bindM_liftM_inv in Hm as (out0 & Ho & Hm).
    injection Hm as <- <- <-.
    apply item0_Ok in Ho as [rest ->]. injection Hh as <-.
    repeat split; eauto.
  - apply bindM_liftM_inv in Hm as (b & Hb%getitem_Ok & Hm).
    destruct b.
    + apply bindM_liftM_inv in Hm as (hidden & Hh & Hm).
      apply bindM_liftM_inv in Hm as (out0 & Ho & Hm).
      injection Hm as <- <- <-.
      apply item0_Ok in Ho as [rest ->]. injection Hh as <-.
      repeat split; [done..|]. exists true. eauto.
    + injection Hm as <- <- <-. repeat split; [done..|]. by exists false.
Qed.

End Executor_facts.

(** ** The output of a pass *)

Section Output.
Context `{Scalar}.
Implicit Types (self : GraphExecutor) (node n : Node) (st : GraphExecutorState).
Implicit Types (prev : option GraphExecutorState).

Lemma index_from_end_2 {A : Type} (l : list A) (a : A) :
  index_from_end l 2 = Ok a ↔ ∃ pre b, l = pre ++ [a; b].
Proof.
  unfold index_from_end. split.
  - case_bool_decide as Hlen; [|done].
    destruct (l !! (length l - 2)) as [a'|] eqn:Hl; [|done]. intros [= ->].
    exists (take (length l - 2) l).
    pose proof (take_drop_middle l _ a Hl) as Hsplit.
    destruct (drop (S (length l - 2)) l) as [|b [|c rest]] eqn:Hd.
    + apply (f_equal length) in Hd. rewrite length_drop in Hd. simpl in Hd. lia.
    + by exists b.
    + apply (f_equal length) in Hd. rewrite length_drop in Hd. simpl in Hd. lia.
  - intros (pre & b & ->). rewrite length_app. simpl.
    rewrite bool_decide_eq_true_2 by lia.
    replace (length pre + 2 - 2) with (length pre) by lia.
    by rewrite list_lookup_middle.
Qed.

Lemma index_from_end_short {A : Type} (l : list A) :
  length l < 2 → index_from_end l 2 = Raise IndexError.
Proof. intros Hl. unfold index_from_end. by rewrite bool_decide_eq_false_2 by lia. Qed.

(** The tail of [forward] (lines 141 to 144), once the loop has returned. *)
Lemma forward_after_loop self data prev st f log :
  forward_loop self data (default GraphExecutorState_new prev)
    (execution_order self) GraphExecutorState_new true = Ok ((st, f), log) →
  forward self data prev =
  match last (execution_order self) with
  | None => Raise (UnboundLocalError "node")
  | Some node =>
      match (if contains (cache st) (name node) then Ok node
             else index_from_end (execution_order self) 2) with
      | Ok node' =>
          match cache st !! name node' with
          | Some out => Ok ((out, st), log)
          | None => Raise (KeyError (name node'))
          end
      | Raise e => Raise e
      end
  end.
Proof.
  intros Hloop. unfold forward. rewrite Hloop. simpl.
  destruct (last (execution_order self)) as [node|]; [|done].
  destruct (if contains (cache st) (name node) then _ else _) as [node'|e]; [|done].
  simpl. unfold getitem. destruct (cache st !! name node'); [|done].
  simpl. by rewrite app_nil_r.
Qed.

Lemma forward_Ok_loop self data prev out st log :
  forward self data prev = Ok ((out, st), log) →
  ∃ f, forward_loop self data (default GraphExecutorState_new prev)
         (execution_order self) GraphExecutorState_new true = Ok ((st, f), log).
Proof.
  unfold forward. intros Hf.
  apply bindM_Ok in Hf as ([st' f] & l1 & l2 & Hloop & Hf & ->).
  destruct (last (execution_order self)) as [node|]; [|done].
  apply bindM_liftM_inv in Hf as (node' & _ & Hf).
  apply bindM_liftM_inv in Hf as (out' & _ & Hf).
  injection Hf as <- <- <-. rewrite app_nil_r. eauto.
Qed.

(** C2: a pass returns the cache entry of the last node of the execution
    order, and when that node has no entry, the entry of the node before it,
    without any error.  The statement characterises every successful
    [forward]: the returned state is the one the loop produced, and the
    output is one of these two cache entries. *)
Theorem forward_output_last_or_second_to_last self data prev out st log :
  forward self data prev = Ok ((out, st), log)
  ↔ ∃ f n,
      forward_loop self data (default GraphExecutorState_new prev)
        (execution_order self) GraphExecutorState_new true = Ok ((st, f), log)
      ∧ last (execution_order self) = Some n
      ∧ (cache st !! name n = Some out
         ∨ (cache st !! name n = None
            ∧ ∃ pre n2, execution_order self = pre ++ [n2; n]
                        ∧ cache st !! name n2 = Some out)).
Proof.
  split.
  - intros Hf. destruct (forward_Ok_loop _ _ _ _ _ _ Hf) as [f Hloop].
    rewrite (forward_after_loop _ _ _ _ _ _ Hloop) in Hf.
    destruct (last (execution_order self)) as [n|] eqn:Hlast; [|done].
    exists f, n. do 2 (split; [done|]).
    destruct (contains (cache st) (name n)) eqn:Hc.
    + left. destruct (cache st !! name n); [by injection Hf as ->|done].
    + right. apply contains_false in Hc. split; [done|].
      destruct (index_from_end (execution_order self) 2) as [n2|] eqn:Hi; [|done].
      apply index_from_end_2 in Hi as (pre & b & Hi).
      rewrite Hi in Hlast. rewrite last_app in Hlast. simpl in Hlast.
      injection Hlast as ->. exists pre, n2. split; [done|].
      destruct (cache st !! name n2); [by injection Hf as ->|done].
  - intros (f & n & Hloop & Hlast & Hout).
    rewrite (forward_after_loop _ _ _ _ _ _ Hloop), Hlast.
    destruct Hout as [Hout|(Hnone & pre & n2 & Hord & Hout)].
    + rewrite (proj2 (contains_true _ _)) by eauto. by rewrite Hout.
    + rewrite (proj2 (contains_false _ _)) by done.
      rewrite (proj2 (index_from_end_2 _ n2)) by eauto. by rewrite Hout.
Qed.

(** C10: the fallback is not guarded.  When the loop has returned and the
    last node of the order has no cache entry, an order of fewer than two
    nodes makes [forward] raise [IndexError], and a second-to-last node
    without a cache entry makes it raise [KeyError]; neither is one of the
    [ValueError]s the executor raises itself. *)
Theorem forward_fallback_unguarded self data prev st f log n :
  forward_loop self data (default GraphExecutorState_new prev)
    (execution_order self) GraphExecutorState_new true = Ok ((st, f), log) →
  last (execution_order self) = Some n →
  cache st !! name n = None →
  (length (execution_order self) < 2 → forward self data prev = Raise IndexError)
  ∧ (∀ pre n2, execution_order self = pre ++ [n2; n] →
               cache st !! name n2 = None →
               forward self data prev = Raise (KeyError (name n2))).
Proof.
  intros Hloop Hlast Hnone.
  rewrite (forward_after_loop _ _ _ _ _ _ Hloop), Hlast.
  rewrite (proj2 (contains_false _ _)) by done. split.
  - intros Hlen. by rewrite index_from_end_short.
  - intros pre n2 Hord Hn2.
    rewrite (proj2 (index_from_end_2 _ n2)) by eauto. by rewrite Hn2.
Qed.

End Output.

(** ** The inputs of a node *)

Section Inputs.
Context `{Scalar}.
Implicit Types (self : GraphExecutor) (node n : Node) (st new old : GraphExecutorState).
Implicit Types (prev : option GraphExecutorState).

Lemma sum_recurrence_source_values srcs new old (acc : list value) :
  sum_recurrence srcs new old acc = acc ++ omap (source_value new old) srcs.
Proof.
  revert acc. induction srcs as [|p srcs IH]; intros acc; simpl.
  { by rewrite app_nil_r. }
  rewrite IH. unfold source_value.
  destruct (cache new !! name p) as [v|] eqn:Hnew; simpl.
  - rewrite (proj2 (contains_true (cache new) (name p))) by eauto. simpl.
    by rewrite <- app_assoc.
  - rewrite (proj2 (contains_false (cache new) (name p))) by done. simpl.
    destruct (cache old !! name p) as [v|] eqn:Hold; simpl.
    + rewrite (proj2 (contains_true (cache old) (name p))) by eauto.
      by rewrite <- app_assoc.
    + by rewrite (proj2 (contains_false (cache old) (name p))) by done.
Qed.

Lemma omap_source_value_none srcs new old :
  (∀ p, p ∈ srcs → cache new !! name p = None ∧ cache old !! name p = None) →
  omap (source_value new old) srcs = [].
Proof.
  induction srcs as [|p srcs IH]; intros Hnone; [done|]. simpl.
  destruct (Hnone p) as [Hn Ho]; [left|]. unfold source_value at 1.
  rewrite Hn, Ho. apply IH. intros q Hq. apply Hnone. by right.
Qed.

(** C5: a node that does not receive the external input and none of whose
    source nodes has a value in the cache of this pass or of the previous
    one stops the pass with the [ValueError] that names it; [forward] returns
    nothing. *)
Theorem forward_no_inputs_found self data prev pre n post st log :
  execution_order self = pre ++ n :: post →
  forward_loop self data (default GraphExecutorState_new prev) pre
    GraphExecutorState_new true = Ok ((st, false), log) →
  elem n ≠ None →
  (∀ p, p ∈ find_source_nodes_of (graph self) n →
        cache st !! name p = None
        ∧ cache (default GraphExecutorState_new prev) !! name p = None) →
  forward self data prev
  = Raise (ValueError ("No inputs found for node " +:+ name n)).
Proof.
  intros Hord Hpre Hunit Hnone. unfold forward.
  rewrite Hord, forward_loop_app, Hpre. simpl.
  destruct (elem n) as [u|] eqn:Hu; [|done].
  unfold _apply_module, module_inputs.
  rewrite sum_recurrence_source_values, omap_source_value_none by done.
  done.
Qed.

Lemma forward_loop_later_nodes self data data' old order st :
  forward_loop self data old order st false
  = forward_loop self data' old order st false.
Proof.
  revert st. induction order as [|n order IH]; intros st; [done|]. simpl.
  destruct (elem n); [|apply IH].
  apply bindM_ext. intros [out st'] l _. apply IH.
Qed.

End Inputs.

(** ** The calls of a pass *)

Section Calls.
Context `{Scalar}.
Implicit Types (self : GraphExecutor) (node n : Node) (st new old : GraphExecutorState).
Implicit Types (prev : option GraphExecutorState) (log : list Call) (c : Call).

(** A run over [pre ++ n :: post] is a run over [pre], the call of [n], and a
    run over [post]. *)
Lemma forward_loop_split self data old pre n post st f st' f' log :
  elem n ≠ None →
  forward_loop self data old (pre ++ n :: post) st f = Ok ((st', f'), log) →
  ∃ st_n f_n log_pre out st_a log_n log_post,
    forward_loop self data old pre st f = Ok ((st_n, f_n), log_pre)
    ∧ _apply_module self n (find_source_nodes_of (graph self) n) st_n old
        (if f_n then Some data else None) = Ok ((out, st_a), log_n)
    ∧ forward_loop self data old post (set_cache st_a (name n) out) false
      = Ok ((st', f'), log_post)
    ∧ log = log_pre ++ log_n ++ log_post.
Proof.
  intros Hunit. rewrite forward_loop_app. intros Hrun.
  apply bindM_Ok in Hrun as ([st_n f_n] & log_pre & l2 & Hpre & Hrun & ->).
  simpl in Hrun. destruct (elem n); [|done].
  apply bindM_Ok in Hrun as ([out st_a] & log_n & log_post & Hn & Hpost & ->).
  by exists st_n, f_n, log_pre, out, st_a, log_n, log_post.
Qed.

(** Every call in the log of a run is the call of a node of the order, made
    by [_apply_module] in the state the nodes before it have produced. *)
Lemma forward_loop_calls self data old order st f r log c :
  forward_loop self data old order st f = Ok (r, log) →
  c ∈ log →
  ∃ pre n post st_n f_n log_pre out st_a,
    order = pre ++ n :: post
    ∧ forward_loop self data old pre st f = Ok ((st_n, f_n), log_pre)
    ∧ _apply_module self n (find_source_nodes_of (graph self) n) st_n old
        (if f_n then Some data else None) = Ok ((out, st_a), [c]).
Proof.
  revert st f log. induction order as [|n order IH]; intros st f log; simpl.
  { intros [= <- <-] Hc. by apply elem_of_nil in Hc. }
  destruct (elem n) as [u|] eqn:Hu.
  - intros Hrun Hc.
    apply bindM_Ok in Hrun as ([out st_a] & l1 & l2 & Hn & Hrest & ->).
    apply elem_of_app in Hc as [Hc|Hc].
    + destruct (apply_module_Ok _ _ _ _ _ _ _ _ _ Hn)
        as (inputs & raw & keeps & _ & Hl1 & _).
      rewrite Hl1 in Hc. apply list_elem_of_singleton in Hc as ->.
      exists [], n, order, st, f, [], out, st_a. by rewrite <- Hl1.
    + destruct (IH _ _ _ Hrest Hc)
        as (pre & m & post & st_m & f_m & log_pre & out' & st_b & -> & Hpre & Hm).
      exists (n :: pre), m, post, st_m, f_m, (l1 ++ log_pre), out', st_b.
      split; [done|]. split; [|done]. simpl. rewrite Hu, Hn. simpl.
      by rewrite Hpre.
  - intros Hrun Hc.
    destruct (IH _ _ _ Hrun Hc)
      as (pre & m & post & st_m & f_m & log_pre & out' & st_b & -> & Hpre & Hm).
    exists (n :: pre), m, post, st_m, f_m, log_pre, out', st_b.
    split; [done|]. split; [|done]. simpl. by rewrite Hu.
Qed.

(** A run leaves alone the hidden values of the names it does not visit. *)
Lemma forward_loop_state_other self data old order st f st' f' log k :
  forward_loop self data old order st f = Ok ((st', f'), log) →
  k ∉ name <$> order →
  state st' !! k = state st !! k.
Proof.
  revert st f log. induction order as [|n order IH]; intros st f log; simpl.
  { by intros [= <- <- <-] _. }
  intros Hrun Hk. apply not_elem_of_cons in Hk as [Hkn Hk].
  destruct (elem n) as [u|] eqn:Hu; [|by eapply IH].
  apply bindM_Ok in Hrun as ([out st_a] & l1 & l2 & Hn & Hrest & ->).
  rewrite (IH _ _ _ Hrest Hk). simpl.
  destruct (apply_module_Ok _ _ _ _ _ _ _ _ _ Hn)
    as (inputs & raw & keeps & _ & _ & _ & _ & _ & Hst).
  destruct keeps.
  - destruct Hst as (rest & _ & ->). by rewrite lookup_insert_ne.
  - destruct Hst as ([|] & _ & Hst).
    + destruct Hst as (rest & _ & ->). by rewrite lookup_insert_ne.
    + by destruct Hst as [_ ->].
Qed.

(** The arguments of a call: the combined input, then the hidden values of
    the previous pass when the node is registered and has some. *)
Lemma module_inputs_Ok self node srcs new old data inputs :
  module_inputs self node srcs new old data = Ok inputs →
  ∃ inp, inputs = inp ::
    (if contains (stateful_modules self) (name node)
        && contains (state old) (name node)
     then default [] (state old !! name node) else []).
Proof.
  unfold module_inputs.
  destruct (sum_recurrence srcs new old (option_list data)) as [|v [|w l]].
  - done.
  - intros [= <-]. eauto.
  - intros (s & _ & [= <-])%bindR_Ok. eauto.
Qed.

Lemma as_tensors_Ok (vs : list value) (ts : list tensor) :
  as_tensors vs = Ok ts → vs = VTensor <$> ts.
Proof.
  revert ts. induction vs as [|[t|l] vs IH]; intros ts; simpl.
  - by intros [= <-].
  - intros (ts' & Hts & [= <-])%bindR_Ok. simpl. by rewrite (IH ts').
  - done.
Qed.

Lemma foldl_tensor_add_lookup (rest : list tensor) (acc : list scalar) (i : nat) :
  foldl tensor_add acc (entries <$> rest) !! i
  = foldl (fun a t' => x ← a; y ← entries t' !! i; Some (sadd x y))
          (acc !! i) rest.
Proof.
  revert acc. induction rest as [|t rest IH]; intros acc; [done|]. simpl.
  rewrite IH. unfold tensor_add. by rewrite lookup_zip_with.
Qed.

(** [torch.stack(ts).sum(0)] has the shape of the tensors, and its entry at
    each position is the sum of their entries at that position. *)
Lemma torch_stack_sum0_Ok (ts : list tensor) (s : tensor) :
  torch_stack_sum0 ts = Ok s →
  Forall (fun t => shape t = shape s) ts
  ∧ ∀ i, entries s !! i = entry_sum ts i.
Proof.
  destruct ts as [|t rest]; [done|]. simpl.
  destruct (forallb _ rest) eqn:Hall; [|done]. intros [= <-]. simpl. split.
  - constructor; [done|]. apply Forall_forall. intros t' Ht'.
    rewrite forallb_forall in Hall. apply list_elem_of_In in Ht'.
    by apply Hall, bool_decide_eq_true in Ht'.
  - intros i. apply foldl_tensor_add_lookup.
Qed.

End Calls.

(** ** What a unit receives *)

Section Arguments_of_calls.
Context `{Scalar}.
Implicit Types (self : GraphExecutor) (node n : Node) (st new old : GraphExecutorState).
Implicit Types (prev : option GraphExecutorState) (log : list Call) (c : Call).

(** C3: for every call of a pass, let [gathered] be the contributing values
    at that point (the external input for the node that receives it, then
    the values of the source nodes).  One value is passed as it is; two or
    more are tensors of one shape, and the unit receives their entrywise sum.
    The inputs [[1,2]] and [[3,4]] combine to [[4,6]]. *)
Theorem node_input_is_entrywise_sum self data prev res log c :
  forward self data prev = Ok (res, log) →
  c ∈ log →
  (∃ pre n post st_n f_n log_pre,
    execution_order self = pre ++ n :: post
    ∧ c_node c = name n
    ∧ forward_loop self data (default GraphExecutorState_new prev) pre
        GraphExecutorState_new true = Ok ((st_n, f_n), log_pre)
    ∧ let gathered :=
        option_list (if f_n then Some data else None)
        ++ omap (source_value st_n (default GraphExecutorState_new prev))
                (find_source_nodes_of (graph self) n) in
      (∀ v, gathered = [v] → head (c_args c) = Some v)
      ∧ (2 ≤ length gathered →
         ∃ ts s, gathered = VTensor <$> ts
                 ∧ head (c_args c) = Some (VTensor s)
                 ∧ Forall (fun t => shape t = shape s) ts
                 ∧ ∀ i, entries s !! i = entry_sum ts i))
  ∧ @stack_sum0 Examples.Z_scalar
      [Examples.vec [1; 2]%Z; Examples.vec [3; 4]%Z]
    = Ok (Examples.vec [4; 6]%Z).
Proof.
  intros Hf Hc. split; [|done]. destruct res as [out st].
  destruct (forward_Ok_loop _ _ _ _ _ _ Hf) as [f Hloop].
  destruct (forward_loop_calls _ _ _ _ _ _ _ _ _ Hloop Hc)
    as (pre & n & post & st_n & f_n & log_pre & out' & st_a & Hord & Hpre & Hn).
  exists pre, n, post, st_n, f_n, log_pre.
  destruct (apply_module_Ok _ _ _ _ _ _ _ _ _ Hn)
    as (inputs & raw & keeps & Hin & [= ->] & _).
  do 3 (split; [done|]). simpl.
  unfold module_inputs in Hin. rewrite sum_recurrence_source_values in Hin.
  destruct (option_list _ ++ omap _ _) as [|v [|w l]] eqn:Hg.
  - done.
  - injection Hin as <-. split; [by intros ? [= <-]|]. simpl. lia.
  - apply bindR_Ok in Hin as (s & Hs & [= <-]). split; [done|]. intros _.
    apply bindR_Ok in Hs as (ts & Hts%as_tensors_Ok & Hs).
    apply bindR_Ok in Hs as (t & Ht & [= <-]).
    destruct (torch_stack_sum0_Ok _ _ Ht) as [Hshape Hentries].
    by exists ts, t.
Qed.

(** C1, as the code has it: the hidden values a node stored on one call are
    passed on the next call after the combined input, not before it.  With
    unique node names, the call of a stateful node on call [k+1] has as
    arguments the combined input followed by exactly what the unit returned
    after its visible output on call [k] (for the snnTorch RSynaptic case
    the whole returned tuple); without a state argument every unit is called
    on the combined input alone. *)
Theorem hidden_values_follow_input self x1 prev1 o1 st1 log1 x2 o2 st2 log2 n :
  NoDup (name <$> execution_order self) →
  forward self x1 prev1 = Ok ((o1, st1), log1) →
  forward self x2 (Some st1) = Ok ((o2, st2), log2) →
  n ∈ execution_order self →
  elem n ≠ None →
  stateful_modules self !! name n = Some true →
  (∃ c1 c2 out rest inp keeps,
     c1 ∈ log1 ∧ c_node c1 = name n ∧ c_out c1 = VTuple (out :: rest)
     ∧ rsynaptic_keeps_output n = Ok keeps
     ∧ c2 ∈ log2 ∧ c_node c2 = name n
     ∧ c_args c2 = inp :: (if keeps then out :: rest else rest))
  ∧ (∀ x res log c, forward self x None = Ok (res, log) → c ∈ log →
                    ∃ inp, c_args c = [inp]).
Proof.
  intros Hnodup Hf1 Hf2 Hn Hunit Hstateful. split.
  - destruct (forward_Ok_loop _ _ _ _ _ _ Hf1) as [f1 Hloop1].
    destruct (forward_Ok_loop _ _ _ _ _ _ Hf2) as [f2 Hloop2].
    apply list_elem_of_split in Hn as (pre & post & Hord).
    rewrite Hord in Hloop1, Hloop2, Hnodup.
    rewrite fmap_app, fmap_cons in Hnodup.
    apply NoDup_app in Hnodup as (_ & _ & Hnodup).
    apply NoDup_cons in Hnodup as [Hfresh _].
    destruct (forward_loop_split _ _ _ _ _ _ _ _ _ _ _ Hunit Hloop1)
      as (sa & fa & la & out & sb & ln & lp & _ & Hcall1 & Hpost1 & ->).
    destruct (forward_loop_split _ _ _ _ _ _ _ _ _ _ _ Hunit Hloop2)
      as (sa2 & fa2 & la2 & out2 & sb2 & ln2 & lp2 & _ & Hcall2 & _ & ->).
    destruct (apply_module_Ok _ _ _ _ _ _ _ _ _ Hcall1)
      as (inputs & raw & keeps & _ & -> & _ & _ & Hkeeps & Hst).
    destruct (apply_module_Ok _ _ _ _ _ _ _ _ _ Hcall2)
      as (inputs2 & raw2 & keeps2 & Hin2 & -> & _).
    assert (∃ rest, raw = VTuple (out :: rest)
                    ∧ state st1 !! name n
                      = Some (if keeps then out :: rest else rest))
      as (rest & -> & Hhidden).
    { rewrite (forward_loop_state_other _ _ _ _ _ _ _ _ _ _ Hpost1 Hfresh).
      simpl. destruct keeps.
      - destruct Hst as (rest & -> & ->). exists rest.
        by rewrite lookup_insert_eq.
      - destruct Hst as (b & Hb & Hst). rewrite Hstateful in Hb.
        injection Hb as <-. destruct Hst as (rest & -> & ->). exists rest.
        by rewrite lookup_insert_eq. }
    apply module_inputs_Ok in Hin2 as [inp ->]. simpl in *.
    rewrite (proj2 (contains_true (stateful_modules self) (name n))),
      (proj2 (contains_true (state st1) (name n))), Hhidden by eauto.
    eexists _, _, out, rest, inp, keeps.
    split; [apply elem_of_app; right; left|]. do 3 (split; [done|]).
    split; [apply elem_of_app; right; left|]. done.
  - intros x [o st] log c Hf Hc.
    destruct (forward_Ok_loop _ _ _ _ _ _ Hf) as [f Hloop].
    destruct (forward_loop_calls _ _ _ _ _ _ _ _ _ Hloop Hc)
      as (pre & m & post & st_m & f_m & log_pre & out' & st_a & _ & _ & Hm).
    destruct (apply_module_Ok _ _ _ _ _ _ _ _ _ Hm)
      as (inputs & raw & keeps & Hin & [= ->] & _).
    apply module_inputs_Ok in Hin as [inp ->]. exists inp. simpl.
    by rewrite (proj2 (contains_false (state GraphExecutorState_new) (name m))),
      andb_false_r by done.
Qed.

End Arguments_of_calls.

(** ** Passes without state *)

Section Stateless.
Context `{Scalar}.
Implicit Types (self : GraphExecutor) (node n : Node) (st new old : GraphExecutorState).
Implicit Types (prev : option GraphExecutorState) (log : list Call) (c : Call).

Lemma stateless_flags self k (b : bool) :
  stateless self = true → stateful_modules self !! k = Some b → b = false.
Proof.
  unfold stateless. intros [Hflags _]%andb_true_iff Hk.
  rewrite forallb_forall in Hflags.
  apply elem_of_map_to_list, list_elem_of_In, Hflags in Hk. simpl in Hk.
  by destruct b.
Qed.

Lemma stateless_keeps self n :
  stateless self = true → n ∈ execution_order self →
  rsynaptic_keeps_output n = Ok false.
Proof.
  unfold stateless. intros [_ Hkeeps]%andb_true_iff Hn.
  rewrite forallb_forall in Hkeeps.
  apply list_elem_of_In, Hkeeps in Hn.
  by destruct (rsynaptic_keeps_output n) as [[|]|].
Qed.

(** A pass of a stateless executor stores no hidden values. *)
Lemma forward_loop_stateless self data old order st f st' f' log :
  stateless self = true →
  (∀ n, n ∈ order → n ∈ execution_order self) →
  forward_loop self data old order st f = Ok ((st', f'), log) →
  state st' = state st.
Proof.
  intros Hsl. revert st f log.
  induction order as [|n order IH]; intros st f log Hsub; simpl.
  { by intros [= <- <- <-]. }
  assert (∀ m, m ∈ order → m ∈ execution_order self) as Hsub'.
  { intros m Hm. apply Hsub. by right. }
  destruct (elem n) as [u|] eqn:Hu; [|by apply IH].
  intros Hrun.
  apply bindM_Ok in Hrun as ([out st_a] & l1 & l2 & Hn & Hrest & ->).
  rewrite (IH _ _ _ Hsub' Hrest). simpl.
  destruct (apply_module_Ok _ _ _ _ _ _ _ _ _ Hn)
    as (inputs & raw & keeps & _ & _ & _ & _ & Hkeeps & Hst).
  rewrite (stateless_keeps self n) in Hkeeps by (done || apply Hsub; left).
  injection Hkeeps as <-. destruct Hst as (b & Hb & Hst).
  rewrite (stateless_flags _ _ _ Hsl Hb) in Hst. by destruct Hst as [_ ->].
Qed.

Lemma cached_names_cons n (order : list Node) :
  cached_names (n :: order)
  = if has_unit n then name n :: cached_names order else cached_names order.
Proof.
  unfold cached_names. rewrite filter_cons.
  destruct (has_unit n); [by rewrite decide_True|by rewrite decide_False].
Qed.

(** The cache after a pass holds what it held before and the names of the
    visited nodes that have a unit. *)
Lemma forward_loop_cache_names self data old order st f st' f' log k :
  forward_loop self data old order st f = Ok ((st', f'), log) →
  is_Some (cache st' !! k) →
  is_Some (cache st !! k) ∨ k ∈ cached_names order.
Proof.
  revert st f log. induction order as [|n order IH]; intros st f log; simpl.
  { intros [= <- <- <-]. by left. }
  rewrite cached_names_cons. unfold has_unit.
  destruct (elem n) as [u|] eqn:Hu; [|by apply IH].
  intros Hrun Hk.
  apply bindM_Ok in Hrun as ([out st_a] & l1 & l2 & Hn & Hrest & ->).
  destruct (IH _ _ _ Hrest Hk) as [Hin|Hin]; [|by right; right].
  simpl in Hin.
  destruct (decide (name n = k)) as [->|Hne]; [right; left|].
  rewrite lookup_insert_ne in Hin by done.
  destruct (apply_module_Ok _ _ _ _ _ _ _ _ _ Hn)
    as (inputs & raw & keeps & _ & _ & _ & Hcache & _).
  rewrite Hcache in Hin. by left.
Qed.

Lemma omap_source_value_old (srcs : list Node) new old old' :
  (∀ p, p ∈ srcs → cache new !! name p = None →
        cache old !! name p = cache old' !! name p) →
  omap (source_value new old) srcs = omap (source_value new old') srcs.
Proof.
  induction srcs as [|p srcs IH]; intros Hsame; [done|]. csimpl.
  rewrite IH by (intros q Hq; apply Hsame; by right).
  assert (source_value new old p = source_value new old' p) as ->; [|done].
  unfold source_value.
  destruct (cache new !! name p) eqn:Hp; [done|].
  apply Hsame; [left|done].
Qed.

(** With no feedback edge and no hidden values, the previous state has no
    part in a pass. *)
Lemma forward_loop_old_irrelevant self data old all seen order st f :
  state old = ∅ →
  (∀ k, is_Some (cache old !! k) → k ∈ all) →
  feed_forward_from self all seen order = true →
  (∀ k, k ∈ seen → is_Some (cache st !! k)) →
  forward_loop self data old order st f
  = forward_loop self data GraphExecutorState_new order st f.
Proof.
  intros Hstate Hall. revert seen st f.
  induction order as [|n order IH]; intros seen st f; [done|]. simpl.
  intros [Hn Hrest]%andb_true_iff Hseen. unfold has_unit in Hn, Hrest.
  destruct (elem n) as [u|] eqn:Hu; [|by eapply IH]. simpl in Hn.
  rewrite forallb_forall in Hn.
  assert (_apply_module self n (find_source_nodes_of (graph self) n) st old
            (if f then Some data else None)
          = _apply_module self n (find_source_nodes_of (graph self) n) st
              GraphExecutorState_new (if f then Some data else None)) as ->.
  { unfold _apply_module, module_inputs.
    rewrite !sum_recurrence_source_values.
    rewrite (omap_source_value_old _ st old GraphExecutorState_new).
    - rewrite Hstate. done.
    - intros p Hp Hnew. simpl. rewrite lookup_empty.
      apply list_elem_of_In, Hn, bool_decide_eq_true in Hp.
      apply eq_None_not_Some. intros Hold%Hall%Hp%Hseen.
      rewrite Hnew in Hold. by destruct Hold. }
  apply bindM_ext. intros [out st_a] l Happ.
  apply (IH (name n :: seen)); [done|]. intros k Hk. simpl.
  destruct (decide (name n = k)) as [->|Hne].
  { rewrite lookup_insert_eq. eauto. }
  rewrite lookup_insert_ne by done.
  destruct (apply_module_Ok _ _ _ _ _ _ _ _ _ Happ)
    as (inputs & raw & keeps & _ & _ & _ & -> & _).
  apply Hseen. by apply elem_of_cons in Hk as [->|Hk].
Qed.

(** The state a successful pass returns can be left out of the next one. *)
Lemma forward_returned_state self x0 prev0 o0 st0 l0 x :
  stateless self = true →
  feed_forward self = true →
  forward self x0 prev0 = Ok ((o0, st0), l0) →
  forward self x (Some st0) = forward self x None.
Proof.
  intros Hsl Hff Hf0. destruct (forward_Ok_loop _ _ _ _ _ _ Hf0) as [f Hloop].
  unfold forward. simpl.
  rewrite (forward_loop_old_irrelevant self x st0
             (cached_names (execution_order self)) []); [done|..|done|].
  - by rewrite (forward_loop_stateless _ _ _ _ _ _ _ _ _ Hsl (fun _ H => H) Hloop).
  - intros k Hk.
    destruct (forward_loop_cache_names _ _ _ _ _ _ _ _ _ _ Hloop Hk) as [Hin|Hin];
      [|done].
    simpl in Hin. rewrite lookup_empty in Hin. by destruct Hin.
  - by intros k ?%elem_of_nil.
Qed.

(** C9, as the code has it: when the graph has no stateful node and no
    feedback edge, a pass started without a state, or with the state an
    earlier pass returned, can be repeated on the same input with its own
    returned state threaded in, and returns the same output (the same state
    and the same calls).  A feedback edge carries a cached value into the
    next pass. *)
Theorem stateless_feed_forward_pure self x prev o1 st1 l1 :
  stateless self = true →
  feed_forward self = true →
  (prev = None
   ∨ ∃ x0 prev0 o0 st0 l0,
       prev = Some st0 ∧ forward self x0 prev0 = Ok ((o0, st0), l0)) →
  forward self x prev = Ok ((o1, st1), l1) →
  forward self x (Some st1) = Ok ((o1, st1), l1).
Proof.
  intros Hsl Hff Hprev Hf1.
  rewrite (forward_returned_state _ _ _ _ _ _ x Hsl Hff Hf1).
  destruct Hprev as [->|(x0 & prev0 & o0 & st0 & l0 & -> & Hf0)]; [done|].
  by rewrite <- (forward_returned_state _ _ _ _ _ _ x Hsl Hff Hf0).
Qed.

End Stateless.

(** ** Where the external input goes, and what the other nodes gather *)

Section Data_input.
Context `{Scalar}.
Implicit Types (self : GraphExecutor) (node n : Node) (st new old : GraphExecutorState).
Implicit Types (prev : option GraphExecutorState) (log : list Call) (c : Call).

Lemma forward_loop_cache_grows self data old order st f st' f' log :
  forward_loop self data old order st f = Ok ((st', f'), log) →
  (∀ k, is_Some (cache st !! k) → is_Some (cache st' !! k))
  ∧ (∀ k, k ∈ cached_names order → is_Some (cache st' !! k)).
Proof.
  revert st f log. induction order as [|n order IH]; intros st f log; simpl.
  { intros [= <- <- <-]. split; [done|]. by intros k ?%elem_of_nil. }
  rewrite cached_names_cons. unfold has_unit.
  destruct (elem n) as [u|] eqn:Hu; [|apply IH]. intros Hrun.
  apply bindM_Ok in Hrun as ([out st_a] & l1 & l2 & Hn & Hrest & ->).
  destruct (apply_module_Ok _ _ _ _ _ _ _ _ _ Hn)
    as (inputs & raw & keeps & _ & _ & _ & Hcache & _).
  destruct (IH _ _ _ Hrest) as [Hkeep Hnew]. split.
  - intros k Hk. apply Hkeep. simpl.
    destruct (decide (name n = k)) as [->|Hne].
    + rewrite lookup_insert_eq. eauto.
    + by rewrite lookup_insert_ne, Hcache.
  - intros k [->|Hk]%elem_of_cons; [|by apply Hnew].
    apply Hkeep. simpl. rewrite lookup_insert_eq. eauto.
Qed.

(** [first_node] stays set exactly as long as no node with a unit has been
    met. *)
Lemma forward_loop_flag self data old order st f st' f' log :
  forward_loop self data old order st f = Ok ((st', f'), log) →
  f' = true ↔ f = true ∧ Forall (fun m => elem m = None) order.
Proof.
  revert st f log. induction order as [|n order IH]; intros st f log; simpl.
  { intros [= <- <- <-]. split; [by intros ->|by intros [-> _]]. }
  destruct (elem n) as [u|] eqn:Hu.
  - intros Hrun.
    apply bindM_Ok in Hrun as ([out st_a] & l1 & l2 & _ & Hrest & ->).
    apply IH in Hrest. split.
    + by intros [? _]%Hrest.
    + intros [_ Hall]. apply Forall_cons in Hall as [Hn _]. congruence.
  - intros Hrun. apply IH in Hrun. rewrite Hrun. split.
    + intros [-> Hall]. split; [done|]. by constructor.
    + intros [-> Hall]. split; [done|]. by apply Forall_cons in Hall as [_ ?].
Qed.

(** C7, as the code has it: the external input goes to the first node of the
    execution order that has a unit (nodes without a unit before it are
    skipped and do not use it up); the nodes after it are run without it,
    whatever it is.  For every call of a pass of [forward]: the node is
    given the external input exactly when no node before it has a unit; the
    cache it reads first is the one of this pass, which holds the nodes with
    a unit before it and nothing else; what it gathers is the external input
    if it is given it, then for each of its source nodes the value in the
    cache of this pass when there is one, else the value in the cache of the
    previous pass when there is one; and the first argument of the call is
    the one gathered value, or their sum when there are several. *)
Theorem forward_data_to_first_unit self data old skipped n rest st :
  Forall (fun m => elem m = None) skipped →
  elem n ≠ None →
  forward_loop self data old (skipped ++ n :: rest) st true
  = bindM (_apply_module self n (find_source_nodes_of (graph self) n) st old
             (Some data))
          (fun r : value * GraphExecutorState =>
             forward_loop self data old rest (set_cache r.2 (name n) r.1) false)
  ∧ (∀ data' order st',
       forward_loop self data old order st' false
       = forward_loop self data' old order st' false)
  ∧ (∀ prev res log c,
       forward self data prev = Ok (res, log) →
       c ∈ log →
       ∃ pre m post st_m f_m log_pre inp,
         execution_order self = pre ++ m :: post
         ∧ c_node c = name m
         ∧ forward_loop self data (default GraphExecutorState_new prev) pre
             GraphExecutorState_new true = Ok ((st_m, f_m), log_pre)
         ∧ (f_m = true ↔ Forall (fun p => elem p = None) pre)
         ∧ (∀ k, is_Some (cache st_m !! k) ↔ k ∈ cached_names pre)
         ∧ head (c_args c) = Some inp
         ∧ let gathered :=
             option_list (if f_m then Some data else None)
             ++ omap (fun p =>
                        match cache st_m !! name p with
                        | Some v => Some v
                        | None =>
                            cache (default GraphExecutorState_new prev)
                            !! name p
                        end) (find_source_nodes_of (graph self) m) in
           gathered = [inp]
           ∨ (2 ≤ length gathered ∧ stack_sum0 gathered = Ok inp)).
Proof.
  intros Hskip Hunit. split; [|split].
  - induction Hskip as [|m skipped Hm _ IH]; simpl.
    + destruct (elem n); [|done]. apply bindM_ext. by intros [out st'] l _.
    + by rewrite Hm.
  - intros. apply forward_loop_later_nodes.
  - intros prev [out st'] log c Hf Hc.
    destruct (forward_Ok_loop _ _ _ _ _ _ Hf) as [f Hloop].
    destruct (forward_loop_calls _ _ _ _ _ _ _ _ _ Hloop Hc)
      as (pre & m & post & st_m & f_m & log_pre & out' & st_a & Hord & Hpre & Hm).
    destruct (apply_module_Ok _ _ _ _ _ _ _ _ _ Hm)
      as (inputs & raw & keeps & Hin & [= ->] & _).
    unfold module_inputs in Hin. rewrite sum_recurrence_source_values in Hin.
    change (source_value st_m (default GraphExecutorState_new prev))
      with (fun p => match cache st_m !! name p with
                     | Some v => Some v
                     | None =>
                         cache (default GraphExecutorState_new prev) !! name p
                     end) in Hin.
    assert (∃ inp, head inputs = Some inp
              ∧ let gathered :=
                  option_list (if f_m then Some data else None)
                  ++ omap (fun p =>
                             match cache st_m !! name p with
                             | Some v => Some v
                             | None =>
                                 cache (default GraphExecutorState_new prev)
                                 !! name p
                             end) (find_source_nodes_of (graph self) m) in
                gathered = [inp]
                ∨ (2 ≤ length gathered ∧ stack_sum0 gathered = Ok inp))
      as (inp & Hhead & Hgathered).
    { simpl. destruct (option_list _ ++ omap _ _) as [|v [|w l]].
      - done.
      - injection Hin as <-. exists v. split; [done|]. by left.
      - apply bindR_Ok in Hin as (s & Hs & [= <-]). exists s.
        split; [done|]. right. split; [simpl; lia|done]. }
    exists pre, m, post, st_m, f_m, log_pre, inp.
    do 3 (split; [done|]). split; [|split; [|done]].
    + rewrite (forward_loop_flag _ _ _ _ _ _ _ _ _ Hpre). split; [by intros [_ ?]|done].
    + intros k. split.
      * intros Hk.
        destruct (forward_loop_cache_names _ _ _ _ _ _ _ _ _ _ Hpre Hk)
          as [Hin'|Hin']; [|done].
        simpl in Hin'. rewrite lookup_empty in Hin'. by destruct Hin'.
      * by apply (forward_loop_cache_grows _ _ _ _ _ _ _ _ _ Hpre).
Qed.

End Data_input.

(** ** Construction and reconstruction *)

Section Construction.
Context `{Collaborators}.

Lemma dict_getitem_Ok {V : Type} (d : list (string * V)) (k : string) (v : V) :
  dict_getitem d k = Ok v ↔ dict_get d k = Some v.
Proof.
  unfold dict_getitem. destruct (dict_get d k); split; try done; by intros [= ->].
Qed.

(** C4: an executor is not built from a graph that declares zero or several
    input nodes, nor from one whose execution order is empty, and extraction
    stops when the traced graph has a number of roots other than one.  Each
    time the result is an error, never a value; the error is the
    [ValueError] of the check whenever registering the units has raised
    nothing before it. *)
Theorem construction_rejects_bad_inputs :
  (∀ graph, length (inputs graph) ≠ 1 →
     ∃ e, GraphExecutor_init graph = Raise e
          ∧ (∀ stateful, instantiate_modules graph = Ok stateful →
               e = ValueError ("Currently, only one input is supported, but "
                               +:+ pretty (length (inputs graph))
                               +:+ " was given")))
  ∧ (∀ graph input,
       inputs graph = [input] →
       trace_execution input (outgoing_keys graph) = [] →
       ∃ e, GraphExecutor_init graph = Raise e
            ∧ (∀ stateful, instantiate_modules graph = Ok stateful →
                 e = ValueError "Graph is empty"))
  ∧ (∀ model model_map sample_data model_name ignored ignore_dims torch_graph,
       traced_graph model sample_data model_name ignored = Ok torch_graph →
       length (get_root torch_graph) ≠ 1 →
       extract_nir_graph model model_map sample_data model_name ignored
         ignore_dims
       = Raise (ValueError ("Currently, only one input is supported, but "
                            +:+ pretty (length (get_root torch_graph))
                            +:+ " was given"))).
Proof.
  split; [|split].
  - intros graph Hlen. unfold GraphExecutor_init, get_execution_order.
    rewrite bool_decide_eq_true_2 by done.
    destruct (instantiate_modules graph) as [sm|e]; simpl;
      (eexists; split; [done|]); [by intros _ _|by intros ?].
  - intros graph input Hin Hempty. unfold GraphExecutor_init, get_execution_order.
    rewrite Hin. simpl. rewrite Hempty.
    destruct (instantiate_modules graph) as [sm|e]; simpl;
      (eexists; split; [done|]); [by intros _ _|by intros ?].
  - intros model model_map sample_data model_name ignored ignore_dims tg Htg Hlen.
    unfold extract_nir_graph. rewrite Htg. simpl.
    by rewrite bool_decide_eq_true_2.
Qed.

Lemma add_edges_resolved (torch_graph : NIRGraphOf (option Module)) es :
  ∀ g0 g,
  add_edges torch_graph g0 es = Ok g
  ↔ ∃ units,
      Forall2 (fun (e : string * string) (u : option Module * option Module) =>
                 dict_get (nodes torch_graph)
                   (resolved_source (nodes torch_graph) e.1) = Some u.1
                 ∧ dict_get (nodes torch_graph)
                     (resolved_destination (nodes torch_graph) e.2) = Some u.2)
              es units
      ∧ add_edge_list g0 units = Ok g.
Proof.
  induction es as [|[src dst] es IH]; intros g0 g; simpl.
  { split.
    - intros [= <-]. exists []. by split; [constructor|].
    - intros (units & Hf & Hadd). apply Forall2_nil_inv_l in Hf as ->.
      done. }
  assert ((if negb (dict_in (nodes torch_graph) src)
              && dict_in (nodes torch_graph) (src +:+ ".output")
           then src +:+ ".output" else src)
          = resolved_source (nodes torch_graph) src) as ->.
  { unfold resolved_source. by destruct (dict_in _ src), (dict_in _ (src +:+ _)). }
  assert ((if negb (dict_in (nodes torch_graph) dst)
              && dict_in (nodes torch_graph) (dst +:+ ".input")
           then dst +:+ ".input" else dst)
          = resolved_destination (nodes torch_graph) dst) as ->.
  { unfold resolved_destination.
    by destruct (dict_in _ dst), (dict_in _ (dst +:+ _)). }
  split.
  - intros (s & Hs%dict_getitem_Ok & Hrest)%bindR_Ok.
    apply bindR_Ok in Hrest as (d & Hd%dict_getitem_Ok & Hrest).
    apply bindR_Ok in Hrest as (g1 & Hg1 & Hrest).
    apply IH in Hrest as (units & Hf & Hadd).
    exists ((s, d) :: units). split; [by constructor|]. simpl. by rewrite Hg1.
  - intros (units & Hf & Hadd).
    apply Forall2_cons_inv_l in Hf as ([s d] & units' & [Hs Hd] & Hf & ->).
    simpl in *. apply bindR_Ok in Hadd as (g1 & Hg1 & Hadd).
    rewrite (proj2 (dict_getitem_Ok _ _ _) Hs),
      (proj2 (dict_getitem_Ok _ _ _) Hd). simpl. rewrite Hg1. simpl.
    apply IH. eauto.
Qed.

(** C8: the graph is built by [add_edge] on the units the endpoints of the
    IR edges stand for, edge by edge; a source that names no node stands for
    [source.output] when that names one, a destination that names no node
    for [destination.input] when that names one, and every other endpoint
    for itself. *)
Theorem reconstruction_rewrites_endpoints torch_graph nir_nodes g :
  let nds := nodes torch_graph in
  let module_names :=
    foldl (fun d '(nm, module) => module_names_set d module nm) [] nds in
  let input_names :=
    (filter (fun '(_, node) => is_Input node = true) nir_nodes).*1 in
  (_mod_nir_to_graph torch_graph nir_nodes = Ok g
   ↔ ∃ units,
       Forall2 (fun (e : string * string) (u : option Module * option Module) =>
                  dict_get nds (resolved_source nds e.1) = Some u.1
                  ∧ dict_get nds (resolved_destination nds e.2) = Some u.2)
               (edges torch_graph) units
       ∧ add_edge_list (Graph_init module_names input_names) units = Ok g)
  ∧ (∀ src, dict_in nds src = false → dict_in nds (src +:+ ".output") = true →
            resolved_source nds src = src +:+ ".output")
  ∧ (∀ dst, dict_in nds dst = false → dict_in nds (dst +:+ ".input") = true →
            resolved_destination nds dst = dst +:+ ".input")
  ∧ (∀ src, dict_in nds src = true ∨ dict_in nds (src +:+ ".output") = false →
            resolved_source nds src = src)
  ∧ (∀ dst, dict_in nds dst = true ∨ dict_in nds (dst +:+ ".input") = false →
            resolved_destination nds dst = dst).
Proof.
  intros nds module_names input_names. split; [apply add_edges_resolved|].
  unfold resolved_source, resolved_destination.
  repeat split.
  - by intros src -> ->.
  - by intros dst -> ->.
  - intros src [->| ->]; [done|]. by destruct (dict_in nds src).
  - intros dst [->| ->]; [done|]. by destruct (dict_in nds dst).
Qed.

End Construction.

(** ** Extraction *)

Section Extraction.
Context `{Collaborators}.

Lemma dict_get_set_eq {V : Type} (d : list (string * V)) (k : string) (v : V) :
  dict_get (dict_set d k v) k = Some v.
Proof.
  induction d as [|[k' v'] d IH]; simpl.
  - by rewrite String.eqb_refl.
  - destruct (String.eqb k' k) eqn:Hk; simpl.
    + by rewrite String.eqb_refl.
    + by rewrite Hk.
Qed.

Lemma dict_get_Some_elem_of {V : Type} (d : list (string * V)) (k : string)
    (v : V) :
  dict_get d k = Some v → ∃ k', (k', v) ∈ d.
Proof.
  induction d as [|[k' v'] d IH]; simpl; [done|].
  destruct (String.eqb k' k).
  - intros [= ->]. exists k'. by left.
  - intros [k'' Hin]%IH. exists k''. by right.
Qed.

Lemma last_filter_cons {A : Type} (P : A → bool) (a : A) (l : list A) :
  last (filter (fun x => P x = true) (a :: l))
  = match last (filter (fun x => P x = true) l) with
    | Some b => Some b
    | None => if P a then Some a else None
    end.
Proof.
  rewrite filter_cons. destruct (P a) eqn:Ha.
  - rewrite decide_True by done.
    by destruct (filter (fun x => P x = true) l) as [|b l'] eqn:Hf;
      [|rewrite last_cons].
  - rewrite decide_False by (by intros ?). by destruct (last _).
Qed.

(** The second loop keeps the edges it is given, joins every sink to
    ["output"], and leaves under ["output"] the node made for the last sink. *)
Lemma convert_edges_Ok torch_graph ignore_dims l :
  ∀ nn ne nn' ne',
  convert_edges torch_graph ignore_dims l nn ne = Ok (nn', ne') →
  (∀ e, e ∈ ne → e ∈ ne')
  ∧ (∀ s, s ∈ l → is_sink s = true → (name s, "output") ∈ ne')
  ∧ match last (filter (fun s => is_sink s = true) l) with
    | Some s =>
        ∃ recorded out_shape,
          module_output_types torch_graph (elem s) = Some recorded
          ∧ minus_ignored recorded ignore_dims = Ok out_shape
          ∧ dict_get nn' "output" = Some (Output out_shape)
    | None => nn' = nn
    end.
Proof.
  induction l as [|n l IH]; intros nn ne nn' ne'; simpl.
  { intros [= <- <-]. repeat split; [done|]. by intros s ?%elem_of_nil. }
  rewrite last_filter_cons.
  case_bool_decide as Hsink.
  - assert (is_sink n = true) as Hn.
    { unfold is_sink. by rewrite bool_decide_eq_true_2. }
    rewrite Hn.
    intros (recorded & Hrec & Hrun)%bindR_Ok.
    apply bindR_Ok in Hrun as (out_shape & Hshape & Hrun).
    destruct (module_output_types torch_graph (elem n)) as [r|] eqn:Hr; [|done].
    injection Hrec as ->.
    destruct (IH _ _ _ _ Hrun) as (Hkeep & Hsinks & Hlast). split; [|split].
    + intros e He. apply Hkeep. apply elem_of_app. left.
      apply elem_of_app. by left.
    + intros s [->|Hs]%elem_of_cons Hss; [|by apply Hsinks].
      apply Hkeep. apply elem_of_app. right. by left.
    + destruct (last (filter _ l)) as [s|]; [done|]. subst nn'.
      exists recorded, out_shape. by rewrite dict_get_set_eq.
  - assert (is_sink n = false) as Hn.
    { unfold is_sink. by rewrite bool_decide_eq_false_2. }
    rewrite Hn.
    intros Hrun. destruct (IH _ _ _ _ Hrun) as (Hkeep & Hsinks & Hlast).
    split; [|split].
    + intros e He. apply Hkeep. apply elem_of_app. by left.
    + intros s [->|Hs]%elem_of_cons Hss; [congruence|by apply Hsinks].
    + by destruct (last (filter _ l)).
Qed.

(** C6, as the code has it: extraction makes one [Output] node, under the
    name ["output"], for all the traced nodes without outgoing edges.  Every
    such node gets an edge to ["output"]; the node carries the recorded
    output shape, minus the ignored dimensions, of the last of them in the
    node list. *)
Theorem extraction_single_output model model_map sample_data model_name
    ignored ignore_dims g :
  extract_nir_graph model model_map sample_data model_name ignored ignore_dims
  = Ok g →
  ∃ torch_graph,
    traced_graph model sample_data model_name ignored = Ok torch_graph
    ∧ (∀ s, s ∈ node_list torch_graph → is_sink s = true →
            (name s, "output") ∈ edges g)
    ∧ (∀ s, last (filter (fun s => is_sink s = true) (node_list torch_graph))
            = Some s →
            ∃ recorded out_shape,
              module_output_types torch_graph (elem s) = Some recorded
              ∧ minus_ignored recorded ignore_dims = Ok out_shape
              ∧ dict_get (nodes g) "output" = Some (Output out_shape)).
Proof.
  unfold extract_nir_graph. intros (tg & Htg & Hrun)%bindR_Ok.
  exists tg. split; [done|].
  case_bool_decide; [done|].
  apply bindR_Ok in Hrun as (input_type & _ & Hrun).
  apply bindR_Ok in Hrun as ([nn1 ne1] & _ & Hrun).
  apply bindR_Ok in Hrun as ([nn2 ne2] & Hedges & [= <-]). simpl.
  destruct (convert_edges_Ok _ _ _ _ _ _ _ Hedges) as (_ & Hsinks & Hlast).
  split.
  - intros s Hs Hss. apply elem_of_remove_dups. by apply Hsinks.
  - intros s Hs. by rewrite Hs in Hlast.
Qed.

End Extraction.

(** ** The statements on explicit inputs *)

Section Explicit_inputs.
Import Examples.
#[local] Existing Instance Z_scalar.
#[local] Open Scope Z_scope.

Ltac run := vm_compute; reflexivity.

(** [open_ended]: the last node has no unit, the output is the value of
    the node before it. *)
Lemma forward_output_last_or_second_to_last_witness :
  ∃ ex st log,
    open_ended = Ok ex
    ∧ forward ex (vec [1; 2]) None = Ok ((vec [1; 2], st), log)
    ∧ cache st !! "output" = None
    ∧ cache st !! "a" = Some (vec [1; 2]).
Proof.
  eexists _, _, _. split; [run|].
  match goal with |- forward ?ex ?x ?p = Ok (_, ?st, ?log) ∧ _ =>
    assert (forward_loop ex x (default GraphExecutorState_new p)
              (execution_order ex) GraphExecutorState_new true
            = Ok ((st, false), log)) as Hloop by run
  end.
  split; [|split; run].
  apply forward_output_last_or_second_to_last.
  eexists false, _. split; [exact Hloop|]. split; [run|].
  right. split; [run|]. eexists [_], _. split; run.
Defined.

(** [lonely] has an order of one node without a unit; [two_boundaries] ends
    in two of them. *)
Lemma forward_fallback_unguarded_witness :
  (∃ ex, lonely = Ok ex ∧ forward ex (vec [1; 2]) None = Raise IndexError)
  ∧ forward two_boundaries (vec [1; 2]) None = Raise (KeyError "x").
Proof.
  split.
  - eexists. split; [run|].
    refine (proj1 (forward_fallback_unguarded _ _ None GraphExecutorState_new
                     true [] (boundary "input") _ _ _) _);
      [run|run|run|vm_compute; lia].
  - refine (proj2 (forward_fallback_unguarded _ _ None GraphExecutorState_new
                     true [] (boundary "y") _ _ _) [] (boundary "x") _ _); run.
Defined.

(** [broken_chain]: the source of the last node has no unit, and so no
    value. *)
Lemma forward_no_inputs_found_witness :
  ∃ ex, broken_chain = Ok ex
        ∧ forward ex (vec [1; 2]) None
          = Raise (ValueError "No inputs found for node b").
Proof.
  eexists. split; [run|].
  match goal with |- forward ?ex ?x ?p = _ =>
    refine (forward_no_inputs_found ex x p
              (take 2 (execution_order ex))
              {| name := "b"; elem := Some (identity 3); outgoing_nodes := [] |}
              [] _ _ _ _ _ _)
  end.
  - run.
  - run.
  - done.
  - intros p Hp. vm_compute in Hp.
    apply list_elem_of_singleton in Hp as ->. split; run.
Defined.

(** C7 as the specification words it fails on [open_start]: the order starts
    with a node without a unit, the code hands the external input to the
    node after it and the pass succeeds, while a loop that gives it to
    position 0 only finds no input for that node. *)
Lemma data_not_only_to_position_0 :
  ∃ ex st f log,
    open_start = Ok ex
    ∧ forward_loop ex (vec [1; 2]) GraphExecutorState_new (execution_order ex)
        GraphExecutorState_new true = Ok ((st, f), log)
    ∧ (c_args <$> log) = [[vec [1; 2]]]
    ∧ forward_loop_by_position ex (vec [1; 2]) GraphExecutorState_new 0
        (execution_order ex) GraphExecutorState_new
      = Raise (ValueError "No inputs found for node a").
Proof. eexists _, _, _, _. split; [run|]. split; [run|]. split; run. Defined.

(** [open_start]: one node without a unit is skipped, then ["a"] receives
    the external input. *)
Lemma forward_data_to_first_unit_witness :
  ∃ ex skipped n,
    open_start = Ok ex
    ∧ execution_order ex = skipped ++ [n]
    ∧ name <$> skipped = ["input"] ∧ name n = "a"
    ∧ forward_loop ex (vec [1; 2]) GraphExecutorState_new (skipped ++ [n])
        GraphExecutorState_new true
      = bindM (_apply_module ex n (find_source_nodes_of (graph ex) n)
                 GraphExecutorState_new GraphExecutorState_new
                 (Some (vec [1; 2])))
              (fun r : value * GraphExecutorState =>
                 forward_loop ex (vec [1; 2]) GraphExecutorState_new []
                   (set_cache r.2 (name n) r.1) false).
Proof.
  eexists _, [_], _. split; [run|]. split; [run|]. split; [run|]. split; [run|].
  apply forward_data_to_first_unit.
  - by repeat constructor.
  - done.
Defined.

(** [recurrent], second pass: node ["a"] gathers the value of ["input"] of
    this pass and the value of ["b"] of the previous pass, and receives
    their sum. *)
Lemma node_input_is_entrywise_sum_witness :
  ∃ ex o1 st1 l1 res log c,
    recurrent = Ok ex
    ∧ forward ex (vec [1; 2]) None = Ok ((o1, st1), l1)
    ∧ forward ex (vec [1; 2]) (Some st1) = Ok (res, log)
    ∧ c ∈ log ∧ c_node c = "a" ∧ c_args c = [vec [2; 4]]
    ∧ stack_sum0 [vec [1; 2]; vec [3; 4]] = Ok (vec [4; 6]).
Proof.
  eexists _, _, _, _, _, _, _. split; [run|]. split; [run|].
  match goal with |- ?F = Ok (?res, ?log) ∧ ?c ∈ _ ∧ _ =>
    assert (F = Ok (res, log)) as Hf by run;
    assert (c ∈ log) as Hc by (right; left)
  end.
  destruct (node_input_is_entrywise_sum _ _ _ _ _ _ Hf Hc) as [_ Hsum].
  split; [exact Hf|]. split; [exact Hc|]. by repeat split.
Defined.

(** C1 as the specification words it fails on [with_memory]: on the second
    pass the unit of ["lif"] is called on the input [[10,20]] followed by the
    hidden value [[1,2]] of the first pass; the hidden value does not come
    first. *)
Lemma hidden_values_not_leading :
  ∃ ex o1 st1 l1 res2 l2 c2 hidden,
    with_memory = Ok ex
    ∧ forward ex (vec [1; 2]) None = Ok ((o1, st1), l1)
    ∧ forward ex (vec [10; 20]) (Some st1) = Ok (res2, l2)
    ∧ c2 ∈ l2 ∧ c_node c2 = "lif"
    ∧ state st1 !! "lif" = Some hidden
    ∧ c_args c2 = vec [10; 20] :: hidden
    ∧ ¬ ∃ inp, c_args c2 = hidden ++ [inp].
Proof.
  eexists _, _, _, _, _, _, _, _. split; [run|]. split; [run|]. split; [run|].
  split; [right; left|]. split; [run|]. split; [run|]. split; [run|].
  intros [inp Hinp]. vm_compute in Hinp. discriminate Hinp.
Defined.

(** [with_memory]: the hidden value ["lif"] returned on the first pass
    follows the input in its call on the second pass. *)
Lemma hidden_values_follow_input_witness :
  ∃ ex o1 st1 l1 o2 st2 l2 c1 c2,
    with_memory = Ok ex
    ∧ forward ex (vec [1; 2]) None = Ok ((o1, st1), l1)
    ∧ forward ex (vec [10; 20]) (Some st1) = Ok ((o2, st2), l2)
    ∧ c1 ∈ l1 ∧ c_node c1 = "lif" ∧ c_out c1 = VTuple [vec [1; 2]; vec [1; 2]]
    ∧ c2 ∈ l2 ∧ c_node c2 = "lif" ∧ c_args c2 = [vec [10; 20]; vec [1; 2]].
Proof.
  eexists _, _, _, _, _, _, _, _, _. split; [run|].
  match goal with |- forward ?ex ?x1 ?p1 = Ok (?o1, ?st1, ?l1) ∧ _ =>
    assert (forward ex x1 p1 = Ok ((o1, st1), l1)) as Hf1 by run
  end.
  split; [exact Hf1|].
  match goal with |- forward ?ex ?x2 ?p2 = Ok (?o2, ?st2, ?l2) ∧ _ =>
    assert (forward ex x2 p2 = Ok ((o2, st2), l2)) as Hf2 by run;
    assert (NoDup (name <$> execution_order ex)) as Hnodup
      by (apply (bool_decide_unpack _); vm_compute; exact I)
  end.
  split; [exact Hf2|].
  destruct (hidden_values_follow_input _ _ _ _ _ _ _ _ _ _
              {| name := "lif"; elem := Some (integrator 2);
                 outgoing_nodes := [("output", [])] |}
              Hnodup Hf1 Hf2) as [_ Hfresh].
  - right; left.
  - done.
  - run.
  - split; [right; left|]. split; [run|]. split; [run|].
    split; [right; left|]. split; run.
Defined.

(** C9 as the specification words it fails on [recurrent], which has no
    stateful node: the feedback edge b -> a brings the cached value of ["b"]
    into the second pass, and the output doubles. *)
Lemma recurrent_graph_not_pure :
  ∃ ex o1 st1 l1 o2 st2 l2,
    recurrent = Ok ex
    ∧ stateless ex = true
    ∧ forward ex (vec [1; 2]) None = Ok ((o1, st1), l1)
    ∧ forward ex (vec [1; 2]) (Some st1) = Ok ((o2, st2), l2)
    ∧ o1 = vec [1; 2] ∧ o2 = vec [2; 4] ∧ o1 ≠ o2.
Proof.
  eexists _, _, _, _, _, _, _. split; [run|]. split; [run|]. split; [run|].
  split; [run|]. split; [run|]. split; [run|]. discriminate.
Defined.

(** [open_ended] has no stateful node and no feedback edge. *)
Lemma stateless_feed_forward_pure_witness :
  ∃ ex o1 st1 l1,
    open_ended = Ok ex
    ∧ stateless ex = true ∧ feed_forward ex = true
    ∧ forward ex (vec [1; 2]) None = Ok ((o1, st1), l1)
    ∧ forward ex (vec [1; 2]) (Some st1) = Ok ((o1, st1), l1).
Proof.
  eexists _, _, _, _. split; [run|]. split; [run|]. split; [run|].
  match goal with |- forward ?ex ?x ?p = Ok (?o1, ?st1, ?l1) ∧ _ =>
    assert (forward ex x p = Ok ((o1, st1), l1)) as Hf by run
  end.
  split; [exact Hf|].
  apply (stateless_feed_forward_pure _ _ None); [run|run|by left|exact Hf].
Defined.

(** [no_input] declares no input node; with [no_order] the resolved order of
    [lonely]'s graph is empty; [two_roots] is traced with two roots. *)
Lemma construction_rejects_bad_inputs_witness :
  (∃ g, @_mod_nir_to_graph _ no_trace
          {| nodes := [("a", Some (identity 1))]; edges := [] |} [("a", Leaf 1)]
        = Ok g
        ∧ @GraphExecutor_init _ no_trace g
          = Raise (ValueError
                     "Currently, only one input is supported, but 0 was given"))
  ∧ (∃ g, @_mod_nir_to_graph _ no_order
            {| nodes := [("input", None)]; edges := [] |}
            [("input", Input [2%nat])]
          = Ok g
          ∧ @GraphExecutor_init _ no_order g = Raise (ValueError "Graph is empty"))
  ∧ @extract_nir_graph _ (collaborators (Ok two_roots)) model leaf_of sample
      (Some "model") None (Some [0])
    = Raise (ValueError "Currently, only one input is supported, but 2 was given").
Proof.
  split; [|split].
  - eexists. split; [run|].
    match goal with |- GraphExecutor_init ?g = _ =>
      destruct (proj1 (@construction_rejects_bad_inputs _ no_trace) g)
        as (e & -> & He); [vm_compute; lia|];
      rewrite (He {["a" := false]}) by run
    end.
    run.
  - eexists. split; [run|].
    match goal with |- GraphExecutor_init ?g = _ =>
      destruct (proj1 (proj2 (@construction_rejects_bad_inputs _ no_order)) g
                  (boundary "input")) as (e & -> & He); [run|run|];
      by rewrite (He ∅) by run
    end.
  - refine (proj2 (proj2 (@construction_rejects_bad_inputs _
                            (collaborators (Ok two_roots))))
              model leaf_of sample (Some "model") None (Some [0]) two_roots _ _);
      [run|vm_compute; lia].
Defined.

(** [with_subgraph]: the edges from and to ["sub"] are attached to
    ["sub.output"] and ["sub.input"]. *)
Lemma reconstruction_rewrites_endpoints_witness :
  ∃ g, @_mod_nir_to_graph _ no_trace with_subgraph [] = Ok g
       ∧ (fun n => (name n, (outgoing_nodes n).*1)) <$> node_list g
         = [("input", ["sub.input"]); ("sub.input", ["sub.output"]);
            ("sub.output", ["output"]); ("output", [])].
Proof.
  eexists.
  match goal with |- ?E = Ok ?g ∧ _ =>
    assert (E = Ok g) as Hg;
      [apply (proj1 (@reconstruction_rewrites_endpoints _ no_trace
                       with_subgraph [] _));
       exists [(Some (identity 1), Some (identity 2));
               (Some (identity 2), Some (identity 3));
               (Some (identity 3), Some (identity 4))];
       split; [by repeat constructor|run]|]
  end.
  split; [exact Hg|run].
Defined.

(** C6 as the specification words it fails on [fan_out]: ["b"] has no
    outgoing edge and the recorded output shape [1,3], and after extraction
    without dimension 0 no node of the IR is [Output [3%nat]]; the only [Output]
    carries the shape of ["c"]. *)
Lemma no_output_node_for_first_sink :
  ∃ g s,
    @extract_nir_graph _ (collaborators (Ok fan_out)) model leaf_of sample
      (Some "model") None (Some [0]) = Ok g
    ∧ s ∈ node_list fan_out ∧ name s = "b" ∧ outgoing_nodes s = []
    ∧ (module_output_types fan_out (elem s) ≫= fun r =>
         match minus_ignored r (Some [0]) with Ok sh => Some sh | _ => None end)
      = Some [3%nat]
    ∧ dict_get (nodes g) "output" = Some (Output [5%nat])
    ∧ ¬ ∃ k, dict_get (nodes g) k = Some (Output [3%nat]).
Proof.
  eexists _, _. split; [run|]. split; [right; left|]. split; [run|].
  split; [run|]. split; [run|]. split; [run|].
  intros [k [k' Hk]%dict_get_Some_elem_of]. simpl in Hk.
  repeat (apply elem_of_cons in Hk as [Hk|Hk]; [discriminate Hk|]).
  by apply elem_of_nil in Hk.
Defined.

(** [fan_out]: both sinks are joined to ["output"], which carries the shape
    of the last one. *)
Lemma extraction_single_output_witness :
  ∃ g,
    @extract_nir_graph _ (collaborators (Ok fan_out)) model leaf_of sample
      (Some "model") None (Some [0]) = Ok g
    ∧ ("b", "output") ∈ edges g ∧ ("c", "output") ∈ edges g
    ∧ dict_get (nodes g) "output" = Some (Output [5%nat]).
Proof.
  eexists.
  match goal with |- ?E = Ok ?g ∧ _ => assert (E = Ok g) as Hg by run end.
  split; [exact Hg|].
  destruct (@extraction_single_output _ (collaborators (Ok fan_out))
              _ _ _ _ _ _ _ Hg) as (tg & Htg & Hsinks & Hlast).
  vm_compute in Htg. injection Htg as <-.
  split; [|split].
  - apply (Hsinks (traced_node "b" 2 [])); [right; left|run].
  - apply (Hsinks (traced_node "c" 3 [])); [right; right; left|run].
  - destruct (Hlast (traced_node "c" 3 [])) as (r & sh & Hr & Hsh & Hout); [run|].
    vm_compute in Hr. injection Hr as <-.
    vm_compute in Hsh. injection Hsh as <-. exact Hout.
Defined.

End Explicit_inputs.

(** * Further properties *)

(** ** What a pass returns *)

Section Returned_state.
Context `{Scalar}.
Implicit Types (self : GraphExecutor) (node n : Node) (st new old : GraphExecutorState).
Implicit Types (prev : option GraphExecutorState) (log : list Call) (c : Call).

Lemma forward_loop_log_names self data old order st f r log :
  forward_loop self data old order st f = Ok (r, log) →
  c_node <$> log = cached_names order.
Proof.
  revert st f log. induction order as [|n order IH]; intros st f log; simpl.
  { by intros [= <- <-]. }
  rewrite cached_names_cons. unfold has_unit.
  destruct (elem n) as [u|] eqn:Hu; [|apply IH]. intros Hrun.
  apply bindM_Ok in Hrun as ([out st_a] & l1 & l2 & Hn & Hrest & ->).
  destruct (apply_module_Ok _ _ _ _ _ _ _ _ _ Hn)
    as (inputs & raw & keeps & _ & -> & _).
  by rewrite fmap_app, (IH _ _ _ Hrest).
Qed.

(** Each unit of the execution order is called once in a pass, and the
    calls are made in the order of the nodes. *)
Theorem one_call_per_unit_in_order self data prev res log :
  forward self data prev = Ok (res, log) →
  c_node <$> log = cached_names (execution_order self).
Proof.
  destruct res as [out st]. intros Hf.
  destruct (forward_Ok_loop _ _ _ _ _ _ Hf) as [f Hloop].
  by eapply forward_loop_log_names.
Qed.

(** The cache of the returned state has an entry for exactly the nodes of
    the execution order that have a unit; nothing of the cache of the
    previous state is carried over. *)
Theorem returned_cache_keys self data prev out st log k :
  forward self data prev = Ok ((out, st), log) →
  is_Some (cache st !! k) ↔ k ∈ cached_names (execution_order self).
Proof.
  intros Hf. destruct (forward_Ok_loop _ _ _ _ _ _ Hf) as [f Hloop]. split.
  - intros Hk.
    destruct (forward_loop_cache_names _ _ _ _ _ _ _ _ _ _ Hloop Hk) as [Hin|Hin];
      [|done].
    simpl in Hin. rewrite lookup_empty in Hin. by destruct Hin.
  - by apply (forward_loop_cache_grows _ _ _ _ _ _ _ _ _ Hloop).
Qed.

Lemma forward_loop_state_from_calls self data old order st f st' f' log k hs :
  forward_loop self data old order st f = Ok ((st', f'), log) →
  state st' !! k = Some hs →
  state st !! k = Some hs
  ∨ ∃ n unit c visible rest,
      n ∈ order ∧ name n = k ∧ elem n = Some unit
      ∧ c ∈ log ∧ c_node c = k ∧ call unit (c_args c) = Ok (c_out c)
      ∧ c_out c = VTuple (visible :: rest)
      ∧ ((rsynaptic_keeps_output n = Ok true ∧ hs = visible :: rest)
         ∨ (rsynaptic_keeps_output n = Ok false
            ∧ stateful_modules self !! k = Some true ∧ hs = rest)).
Proof.
  revert st f log. induction order as [|n order IH]; intros st f log; simpl.
  { intros [= <- <- <-]. by left. }
  destruct (elem n) as [u|] eqn:Hu.
  2:{ intros Hrun Hk.
      destruct (IH _ _ _ Hrun Hk)
        as [Hst|(m & um & c & o & rest & Hm & Hrec)]; [by left|].
      right. exists m, um, c, o, rest. split; [by right|done]. }
  intros Hrun Hk.
  apply bindM_Ok in Hrun as ([out st_a] & l1 & l2 & Hn & Hrest & ->).
  destruct (IH _ _ _ Hrest Hk)
    as [Hst|(m & um & c & o & rest & Hm & Hname & Hum & Hc & Hrec)].
  2:{ right. exists m, um, c, o, rest. split; [by right|].
      do 2 (split; [done|]). split; [|done]. apply elem_of_app. by right. }
  simpl in Hst.
  destruct (apply_module_Ok _ _ _ _ _ _ _ _ _ Hn)
    as (inputs & raw & keeps & _ & -> & (unit & Hunit & Hcall) & _ & Hkeeps
        & Hstored).
  rewrite Hu in Hunit. injection Hunit as <-.
  destruct keeps.
  - destruct Hstored as (rest & -> & Hsta). rewrite Hsta in Hst.
    destruct (decide (name n = k)) as [<-|Hne].
    + rewrite lookup_insert_eq in Hst. injection Hst as <-.
      right. eexists n, u, _, out, rest. split; [by left|].
      do 2 (split; [done|]). split; [by left|]. simpl.
      do 3 (split; [done|]). by left.
    + rewrite lookup_insert_ne in Hst by done. by left.
  - destruct Hstored as ([|] & Hb & Hstored).
    + destruct Hstored as (rest & -> & Hsta). rewrite Hsta in Hst.
      destruct (decide (name n = k)) as [<-|Hne].
      * rewrite lookup_insert_eq in Hst. injection Hst as <-.
        right. eexists n, u, _, out, rest. split; [by left|].
        do 2 (split; [done|]). split; [by left|]. simpl.
        do 3 (split; [done|]). by right.
      * rewrite lookup_insert_ne in Hst by done. by left.
    + destruct Hstored as [_ ->]. by left.
Qed.

(** The hidden values of the returned state all come from calls of this
    pass, and no entry of the previous state is carried over: an entry under
    a name is there because a node of that name has a unit that was called in
    this pass and returned a tuple.  If that unit is an RSynaptic one that
    keeps its hidden values outside, the entry is the whole tuple; if it is
    not and the name is registered as stateful, the entry is the tuple
    without its first component.  There is no other case. *)
Theorem returned_hidden_values_from_calls self data prev out st log k hs :
  forward self data prev = Ok ((out, st), log) →
  state st !! k = Some hs →
  ∃ n unit c visible rest,
    n ∈ execution_order self ∧ name n = k ∧ elem n = Some unit
    ∧ c ∈ log ∧ c_node c = k ∧ call unit (c_args c) = Ok (c_out c)
    ∧ c_out c = VTuple (visible :: rest)
    ∧ ((rsynaptic_keeps_output n = Ok true ∧ hs = visible :: rest)
       ∨ (rsynaptic_keeps_output n = Ok false
          ∧ stateful_modules self !! k = Some true ∧ hs = rest)).
Proof.
  intros Hf Hk. destruct (forward_Ok_loop _ _ _ _ _ _ Hf) as [f Hloop].
  destruct (forward_loop_state_from_calls _ _ _ _ _ _ _ _ _ _ _ Hloop Hk)
    as [Hin|Hin]; [|done].
  simpl in Hin. by rewrite lookup_empty in Hin.
Qed.

Lemma forward_loop_cache_other self data old order st f st' f' log k :
  forward_loop self data old order st f = Ok ((st', f'), log) →
  k ∉ name <$> order →
  cache st' !! k = cache st !! k.
Proof.
  revert st f log. induction order as [|n order IH]; intros st f log; simpl.
  { by intros [= <- <- <-] _. }
  intros Hrun Hk. apply not_elem_of_cons in Hk as [Hkn Hk].
  destruct (elem n) as [u|] eqn:Hu; [|by eapply IH].
  apply bindM_Ok in Hrun as ([out st_a] & l1 & l2 & Hn & Hrest & ->).
  rewrite (IH _ _ _ Hrest Hk). simpl. rewrite lookup_insert_ne by done.
  destruct (apply_module_Ok _ _ _ _ _ _ _ _ _ Hn)
    as (inputs & raw & keeps & _ & _ & _ & Hcache & _).
  by rewrite Hcache.
Qed.

(** With unique node names, the returned state records every call of the
    pass: under the name of the node, the cache holds the visible output
    of the call and the hidden state holds the hidden values it returned,
    or nothing for a stateless unit. *)
Theorem returned_state_records_calls self data prev out st log c :
  NoDup (name <$> execution_order self) →
  forward self data prev = Ok ((out, st), log) →
  c ∈ log →
  ∃ n keeps stateful visible hidden,
    n ∈ execution_order self ∧ c_node c = name n
    ∧ rsynaptic_keeps_output n = Ok keeps
    ∧ (keeps = false → stateful_modules self !! name n = Some stateful)
    ∧ recorded_by_call keeps stateful (c_out c) = Some (visible, hidden)
    ∧ cache st !! name n = Some visible
    ∧ state st !! name n = hidden.
Proof.
  intros Hnodup Hf Hc. destruct (forward_Ok_loop _ _ _ _ _ _ Hf) as [f Hloop].
  destruct (forward_loop_calls _ _ _ _ _ _ _ _ _ Hloop Hc)
    as (pre & n & post & st_n & f_n & log_pre & out' & st_a & Hord & Hpre & Hn).
  destruct (apply_module_Ok _ _ _ _ _ _ _ _ _ Hn)
    as (inputs & raw & keeps & _ & [= ->] & [u [Hu _]] & Hcache & Hkeeps & Hstored).
  rewrite Hord in Hloop, Hnodup.
  rewrite fmap_app, fmap_cons in Hnodup.
  apply NoDup_app in Hnodup as (_ & Hpre_fresh & Hnodup).
  apply NoDup_cons in Hnodup as [Hpost_fresh _].
  assert (name n ∉ name <$> pre) as Hpre_fresh'.
  { intros Hin. apply (Hpre_fresh _ Hin). by left. }
  assert (elem n ≠ None) as Hunit by (by rewrite Hu).
  destruct (forward_loop_split _ _ _ _ _ _ _ _ _ _ _ Hunit Hloop)
    as (sa & fa & la & o2 & sb & ln & lp & Hpre2 & Hcall2 & Hpost & _).
  rewrite Hpre in Hpre2. injection Hpre2 as <- <- <-.
  rewrite Hn in Hcall2. injection Hcall2 as <- <- <-.
  pose proof (forward_loop_state_other _ _ _ _ _ _ _ _ _ _ Hpre Hpre_fresh')
    as Hstate_pre.
  simpl in Hstate_pre. rewrite lookup_empty in Hstate_pre.
  pose proof (forward_loop_state_other _ _ _ _ _ _ _ _ _ _ Hpost Hpost_fresh)
    as Hstate_post.
  pose proof (forward_loop_cache_other _ _ _ _ _ _ _ _ _ _ Hpost Hpost_fresh)
    as Hcache_post.
  simpl in Hstate_post, Hcache_post. rewrite lookup_insert_eq in Hcache_post.
  assert (n ∈ execution_order self) as Hin.
  { rewrite Hord. apply elem_of_app. right. by left. }
  destruct keeps.
  - destruct Hstored as (rest & -> & Hsta).
    exists n, true, true, out', (Some (out' :: rest)).
    do 3 (split; [done|]). split; [done|]. split; [done|]. split; [done|].
    by rewrite Hstate_post, Hsta, lookup_insert_eq.
  - destruct Hstored as (b & Hb & Hstored). destruct b.
    + destruct Hstored as (rest & -> & Hsta).
      exists n, false, true, out', (Some rest).
      do 3 (split; [done|]). split; [done|]. split; [done|]. split; [done|].
      by rewrite Hstate_post, Hsta, lookup_insert_eq.
    + destruct Hstored as [-> ->].
      exists n, false, false, raw, None.
      do 3 (split; [done|]). split; [done|]. split; [done|]. split; [done|].
      by rewrite Hstate_post, Hstate_pre.
Qed.

End Returned_state.

(** ** Passes that stop *)

Section Stopped_passes.
Context `{Scalar}.
Implicit Types (self : GraphExecutor) (node n : Node) (st new old : GraphExecutorState).
Implicit Types (prev : option GraphExecutorState) (log : list Call) (c : Call).

(** An exception of [_apply_module] at a node ends the pass with it. *)
Lemma forward_raises_at self data prev pre n post st_n f_n log_pre e :
  execution_order self = pre ++ n :: post →
  forward_loop self data (default GraphExecutorState_new prev) pre
    GraphExecutorState_new true = Ok ((st_n, f_n), log_pre) →
  elem n ≠ None →
  _apply_module self n (find_source_nodes_of (graph self) n) st_n
    (default GraphExecutorState_new prev) (if f_n then Some data else None)
  = Raise e →
  forward self data prev = Raise e.
Proof.
  intros Hord Hpre Hunit Happ. unfold forward.
  rewrite Hord, forward_loop_app, Hpre. simpl.
  destruct (elem n) as [u|]; [|done]. by rewrite Happ.
Qed.

(** A node whose name is not a key of [stateful_modules] (the keys are
    sanitized names), and whose unit is either no RSynaptic unit or an
    RSynaptic unit with [init_hidden] true, stops the pass with [KeyError] on
    that name, after its unit has been called and has returned.  (For an
    RSynaptic unit with [init_hidden] false, lines 110 to 113 do not reach
    the lookup of line 114.) *)
Theorem forward_unregistered_name self data prev pre n post st_n f_n log_pre
    unit inputs raw :
  execution_order self = pre ++ n :: post →
  forward_loop self data (default GraphExecutorState_new prev) pre
    GraphExecutorState_new true = Ok ((st_n, f_n), log_pre) →
  elem n = Some unit →
  module_inputs self n (find_source_nodes_of (graph self) n) st_n
    (default GraphExecutorState_new prev) (if f_n then Some data else None)
  = Ok inputs →
  call unit inputs = Ok raw →
  rsynaptic_keeps_output n = Ok false →
  stateful_modules self !! name n = None →
  forward self data prev = Raise (KeyError (name n)).
Proof.
  intros Hord Hpre Hu Hin Hcall Hkeeps Hnone.
  apply (forward_raises_at _ _ _ _ _ _ _ _ _ _ Hord Hpre); [by rewrite Hu|].
  unfold _apply_module, invoke, getitem.
  rewrite Hin, Hkeeps, Hnone, Hu. simpl. by rewrite Hcall.
Qed.

(** An RSynaptic unit that keeps its hidden values outside must sit on a node
    whose name contains "lif"; on any other node the pass stops with the
    [AssertionError] of line 111. *)
Theorem forward_rsynaptic_needs_lif self data prev pre n post st_n f_n log_pre
    unit inputs raw :
  execution_order self = pre ++ n :: post →
  forward_loop self data (default GraphExecutorState_new prev) pre
    GraphExecutorState_new true = Ok ((st_n, f_n), log_pre) →
  elem n = Some unit →
  module_inputs self n (find_source_nodes_of (graph self) n) st_n
    (default GraphExecutorState_new prev) (if f_n then Some data else None)
  = Ok inputs →
  call unit inputs = Ok raw →
  rsynaptic_keeps_output n = Ok true →
  str_in "lif" (name n) = false →
  forward self data prev = Raise (AssertionError "this shouldnt happen..").
Proof.
  intros Hord Hpre Hu Hin Hcall Hkeeps Hlif.
  apply (forward_raises_at _ _ _ _ _ _ _ _ _ _ Hord Hpre); [by rewrite Hu|].
  unfold _apply_module, invoke.
  rewrite Hin, Hkeeps, Hlif, Hu. simpl. by rewrite Hcall.
Qed.

(** An exception raised by a unit ends the pass with that exception: no
    output and no state are returned. *)
Theorem forward_unit_error self data prev pre n post st_n f_n log_pre
    unit inputs e :
  execution_order self = pre ++ n :: post →
  forward_loop self data (default GraphExecutorState_new prev) pre
    GraphExecutorState_new true = Ok ((st_n, f_n), log_pre) →
  elem n = Some unit →
  module_inputs self n (find_source_nodes_of (graph self) n) st_n
    (default GraphExecutorState_new prev) (if f_n then Some data else None)
  = Ok inputs →
  call unit inputs = Raise e →
  forward self data prev = Raise e.
Proof.
  intros Hord Hpre Hu Hin Hcall.
  apply (forward_raises_at _ _ _ _ _ _ _ _ _ _ Hord Hpre); [by rewrite Hu|].
  unfold _apply_module, invoke. rewrite Hin, Hu. simpl. by rewrite Hcall.
Qed.

Lemma forward_loop_old_agree self data old old' order st f :
  (∀ n, n ∈ order → state old !! name n = state old' !! name n) →
  (∀ n p, n ∈ order → p ∈ find_source_nodes_of (graph self) n →
          cache old !! name p = cache old' !! name p) →
  forward_loop self data old order st f
  = forward_loop self data old' order st f.
Proof.
  revert st f. induction order as [|n order IH]; intros st f Hs Hc; [done|].
  simpl.
  assert (∀ st' f',
            forward_loop self data old order st' f'
            = forward_loop self data old' order st' f') as IH'.
  { intros st' f'. apply IH.
    - intros m Hm. apply Hs. by right.
    - intros m p Hm. apply Hc. by right. }
  destruct (elem n) as [u|]; [|apply IH'].
  assert (module_inputs self n (find_source_nodes_of (graph self) n) st old
            (if f then Some data else None)
          = module_inputs self n (find_source_nodes_of (graph self) n) st old'
              (if f then Some data else None)) as Hin.
  { unfold module_inputs, contains. rewrite !sum_recurrence_source_values.
    rewrite (omap_source_value_old _ st old old')
      by (intros p Hp _; apply (Hc n); [left|done]).
    by rewrite (Hs n) by left. }
  unfold _apply_module. rewrite Hin.
  apply bindM_ext. intros [out st_a] l _. apply IH'.
Qed.

(** A pass reads of the previous state only the hidden values stored under
    the names of the nodes of the order and the cache entries stored under
    the names of their source nodes: two previous states that agree on
    those give the same pass. *)
Theorem forward_reads_only_its_nodes self data old old' :
  (∀ n, n ∈ execution_order self →
        state old !! name n = state old' !! name n) →
  (∀ n p, n ∈ execution_order self →
          p ∈ find_source_nodes_of (graph self) n →
          cache old !! name p = cache old' !! name p) →
  forward self data (Some old) = forward self data (Some old').
Proof.
  intros Hs Hc. unfold forward. simpl.
  by rewrite (forward_loop_old_agree self data old old').
Qed.

End Stopped_passes.

(** ** Building an executor *)

Section Building.
Context `{Collaborators}.

(** An executor is built exactly when the units can be registered, the
    graph declares one input node and the order traced from it is not empty;
    it then holds the graph, the flags of the registered units and that
    order. *)
Theorem executor_built_iff graph ex :
  GraphExecutor_init graph = Ok ex
  ↔ ∃ input stateful,
      inputs graph = [input]
      ∧ instantiate_modules graph = Ok stateful
      ∧ trace_execution input (outgoing_keys graph) ≠ []
      ∧ ex = {| graph := graph; stateful_modules := stateful;
                execution_order :=
                  trace_execution input (outgoing_keys graph) |}.
Proof.
  unfold GraphExecutor_init, get_execution_order. split.
  - intros (stateful & Hsm & Hrest)%bindR_Ok.
    apply bindR_Ok in Hrest as (order & Horder & Hex).
    destruct (bool_decide (length (inputs graph) ≠ 1)) eqn:Hlen; [done|].
    apply bool_decide_eq_false in Hlen.
    destruct (inputs graph) as [|input [|??]] eqn:Hin; simpl in *;
      [lia| |lia].
    injection Horder as <-.
    destruct (bool_decide (length _ = 0)) eqn:Hempty; [done|].
    apply bool_decide_eq_false in Hempty. injection Hex as <-.
    exists input, stateful. repeat split; [done|].
    intros Hnil. by rewrite Hnil in Hempty.
  - intros (input & stateful & Hin & Hsm & Hne & ->).
    rewrite Hsm, Hin. simpl.
    rewrite bool_decide_eq_false_2; [done|].
    intros Hlen. by destruct (trace_execution input (outgoing_keys graph)).
Qed.

Lemma instantiate_modules_items_Ok items :
  ∀ sm0 sm,
  instantiate_modules_items items sm0 = Ok sm →
  (∀ k, is_Some (sm !! k)
        ↔ is_Some (sm0 !! k)
          ∨ ∃ unit nm, (Some unit, nm) ∈ items ∧ sanitize_name nm = k)
  ∧ (∀ k (b : bool), sm !! k = Some b →
        sm0 !! k = Some b
        ∨ ∃ unit nm, (Some unit, nm) ∈ items ∧ sanitize_name nm = k
                     ∧ _is_module_stateful unit = Ok b).
Proof.
  induction items as [|[[u|] nm] items IH]; intros sm0 sm; simpl.
  - intros [= <-]. split.
    + intros k. split; [by left|]. intros [?|(? & ? & []%elem_of_nil & _)]. done.
    + intros k b Hk. by left.
  - intros (? & _ & Hrest)%bindR_Ok.
    apply bindR_Ok in Hrest as (b0 & Hb0 & Hrest).
    destruct (IH _ _ Hrest) as [Hkeys Hvals]. split.
    + intros k. rewrite Hkeys. split.
      * intros [Hk|(u' & nm' & Hin & Hnm)].
        -- destruct (decide (sanitize_name nm = k)) as [<-|Hne].
           ++ right. exists u, nm. split; [by left|done].
           ++ left. by rewrite lookup_insert_ne in Hk.
        -- right. exists u', nm'. split; [by right|done].
      * intros [Hk|(u' & nm' & Hin & Hnm)].
        -- left. destruct (decide (sanitize_name nm = k)) as [<-|Hne].
           ++ rewrite lookup_insert_eq. eauto.
           ++ by rewrite lookup_insert_ne.
        -- apply elem_of_cons in Hin as [[= <- <-]|Hin].
           ++ left. rewrite Hnm, lookup_insert_eq. eauto.
           ++ right. eauto.
    + intros k b Hk. destruct (Hvals k b Hk) as [Hk0|(u' & nm' & Hin & Hnm & Hb)].
      * destruct (decide (sanitize_name nm = k)) as [<-|Hne].
        -- rewrite lookup_insert_eq in Hk0. injection Hk0 as <-.
           right. exists u, nm. split; [by left|done].
        -- left. by rewrite lookup_insert_ne in Hk0.
      * right. exists u', nm'. split; [by right|done].
  - intros Hrest. destruct (IH _ _ Hrest) as [Hkeys Hvals]. split.
    + intros k. rewrite Hkeys. split.
      * intros [Hk|(u' & nm' & Hin & Hnm)]; [by left|].
        right. exists u', nm'. split; [by right|done].
      * intros [Hk|(u' & nm' & Hin & Hnm)]; [by left|].
        apply elem_of_cons in Hin as [[=]|Hin]. right. eauto.
    + intros k b Hk. destruct (Hvals k b Hk) as [Hk0|(u' & nm' & Hin & Hnm & Hb)];
        [by left|].
      right. exists u', nm'. split; [by right|done].
Qed.

(** The keys of [stateful_modules] are the sanitized names of the nodes that
    have a unit, and no others; the flag under a key is the statefulness of
    a unit registered under that sanitized name.  Nodes without a unit are
    not registered. *)
Theorem registered_units graph stateful :
  instantiate_modules graph = Ok stateful →
  (∀ k, is_Some (stateful !! k)
        ↔ ∃ unit nm, (Some unit, nm) ∈ module_names graph
                     ∧ sanitize_name nm = k)
  ∧ (∀ k (b : bool), stateful !! k = Some b →
        ∃ unit nm, (Some unit, nm) ∈ module_names graph
                   ∧ sanitize_name nm = k ∧ _is_module_stateful unit = Ok b).
Proof.
  intros Hsm. destruct (instantiate_modules_items_Ok _ _ _ Hsm) as [Hkeys Hvals].
  split.
  - intros k. rewrite Hkeys. rewrite lookup_empty. split; [|by right].
    by intros [[? ?]|?].
  - intros k b Hk. destruct (Hvals k b Hk) as [Hk0|?]; [|done].
    by rewrite lookup_empty in Hk0.
Qed.

Lemma prefix_app_l (a b s : string) :
  String.prefix (a +:+ b) s = true → String.prefix a s = true.
Proof.
  revert s. induction a as [|ch a IH]; intros s; simpl.
  { by destruct s. }
  destruct s as [|ch' s]; [done|]. simpl.
  destruct (Ascii.ascii_dec ch ch'); [apply IH|done].
Qed.

Lemma str_in_app_l (a b s : string) :
  str_in (a +:+ b) s = true → str_in a s = true.
Proof.
  induction s as [|ch s IH]; cbn [str_in].
  - rewrite !orb_false_r. apply prefix_app_l.
  - intros [Hp|Hs]%orb_true_iff; apply orb_true_iff.
    + left. by apply prefix_app_l in Hp.
    + right. by apply IH.
Qed.

(** The two tests on the class of a unit agree for snnTorch's RSynaptic: a
    unit that [_apply_module] takes for an RSynaptic, and whose class is
    named so, is registered as stateful exactly when [_apply_module] keeps
    its whole result as hidden values, that is when [init_hidden] is false;
    the number of parameters of its [forward] plays no part. *)
Theorem rsynaptic_registration (node : Node) (unit : Module) :
  elem node = Some unit →
  is_rsynaptic unit = true →
  class_name unit = "RSynaptic" →
  _is_module_stateful unit = rsynaptic_keeps_output node.
Proof.
  intros Hu Hrs Hname. unfold rsynaptic_keeps_output, _is_module_stateful.
  rewrite Hu, Hrs, Hname.
  rewrite (str_in_app_l "snntorch" "._neurons.rsynaptic.RSynaptic") by exact Hrs.
  done.
Qed.

End Building.

(** ** The dictionaries of reconstruction *)

Section Dictionaries.
Context `{Scalar}.

Lemma same_unit_key (a b : option Module) :
  same_unit a b = true ↔ unit_key a = unit_key b.
Proof.
  destruct a as [x|], b as [y|]; simpl; try done.
  rewrite bool_decide_eq_true. split; [by intros ->|by intros [= ->]].
Qed.

Lemma module_names_set_keys d (m0 : option Module) nm0 :
  unit_key <$> (module_names_set d m0 nm0).*1
  = if bool_decide (unit_key m0 ∈ unit_key <$> d.*1)
    then unit_key <$> d.*1
    else (unit_key <$> d.*1) ++ [unit_key m0].
Proof.
  induction d as [|[m' nm'] d IH]; [done|]. csimpl.
  destruct (same_unit m' m0) eqn:Hsame; csimpl.
  - apply same_unit_key in Hsame.
    rewrite bool_decide_eq_true_2; [done|]. rewrite Hsame. by left.
  - rewrite IH. assert (unit_key m' ≠ unit_key m0) as Hne.
    { intros Heq%same_unit_key. by rewrite Heq in Hsame. }
    case_bool_decide as Hin.
    + rewrite bool_decide_eq_true_2; [done|]. by right.
    + rewrite bool_decide_eq_false_2; [done|].
      by intros [?|?]%elem_of_cons.
Qed.

Lemma module_names_set_NoDup d (m0 : option Module) nm0 :
  NoDup (unit_key <$> d.*1) →
  NoDup (unit_key <$> (module_names_set d m0 nm0).*1).
Proof.
  intros Hd. rewrite module_names_set_keys. case_bool_decide as Hin; [done|].
  apply NoDup_app. split; [done|]. split; [|apply NoDup_singleton].
  intros k Hk ->%list_elem_of_singleton. done.
Qed.

Lemma module_names_set_elem d (m0 : option Module) nm0 key nm :
  NoDup (unit_key <$> d.*1) →
  (∃ m, unit_key m = key ∧ (m, nm) ∈ module_names_set d m0 nm0)
  ↔ (key = unit_key m0 ∧ nm = nm0)
    ∨ (key ≠ unit_key m0 ∧ ∃ m, unit_key m = key ∧ (m, nm) ∈ d).
Proof.
  induction d as [|[m' nm'] d IH]; simpl; intros Hd.
  { split.
    - intros (m & <- & [= -> ->]%list_elem_of_singleton). by left.
    - intros [[-> ->]|(_ & m & _ & []%elem_of_nil)].
      exists m0. split; [done|]. by left. }
  apply NoDup_cons in Hd as [Hfresh Hd].
  destruct (same_unit m' m0) eqn:Hsame.
  - apply same_unit_key in Hsame. split.
    + intros (m & <- & [[= -> ->]|Hin]%elem_of_cons); [by left|].
      right. split.
      * intros Heq. apply Hfresh. rewrite Hsame, <- Heq.
        apply list_elem_of_fmap. exists m. split; [done|].
        apply list_elem_of_fmap. by exists (m, nm).
      * exists m. split; [done|]. by right.
    + intros [[-> ->]|(Hne & m & <- & [[= -> ->]|Hin]%elem_of_cons)].
      * exists m'. split; [done|]. by left.
      * done.
      * exists m. split; [done|]. by right.
  - assert (unit_key m' ≠ unit_key m0) as Hne.
    { intros Heq%same_unit_key. by rewrite Heq in Hsame. }
    split.
    + intros (m & <- & [[= -> ->]|Hin]%elem_of_cons).
      * right. split; [done|]. exists m'. split; [done|]. by left.
      * destruct (proj1 (IH Hd)) as [?|(Hne' & m2 & Hk & Hin2)]; [eauto|by left|].
        right. split; [done|]. exists m2. split; [done|]. by right.
    + intros [[-> ->]|(Hne' & m & <- & [[= -> ->]|Hin]%elem_of_cons)].
      * destruct (proj2 (IH Hd)) as (m & Hk & Hin); [by left|].
        exists m. split; [done|]. by right.
      * exists m'. split; [done|]. by left.
      * destruct (proj2 (IH Hd)) as (m2 & Hk & Hin2); [right; eauto|].
        exists m2. split; [done|]. by right.
Qed.

Lemma module_names_of_snoc (nodes : list (string * option Module)) nm m :
  module_names_of (nodes ++ [(nm, m)])
  = module_names_set (module_names_of nodes) m nm.
Proof. unfold module_names_of. by rewrite foldl_app. Qed.

(** The dictionary from units to names that [_mod_nir_to_graph] hands to
    [Graph] has one entry for each unit, with the name of the last node
    that has this unit.  In particular all the nodes without a unit share one
    entry, under the name of the last of them. *)
Theorem module_names_one_entry_per_unit (nodes : list (string * option Module)) :
  NoDup (unit_key <$> (module_names_of nodes).*1)
  ∧ ∀ key nm,
      (∃ m, unit_key m = key ∧ (m, nm) ∈ module_names_of nodes)
      ↔ fst <$> last (filter (fun e => unit_key e.2 = key) nodes) = Some nm.
Proof.
  induction nodes as [|[nm0 m0] nodes [IHd IHe]] using rev_ind.
  { split; [constructor|]. intros key nm. split; [|done].
    by intros (m & _ & ?%elem_of_nil). }
  rewrite module_names_of_snoc. split; [by apply module_names_set_NoDup|].
  intros key nm. rewrite module_names_set_elem by done.
  rewrite filter_app, filter_cons, filter_nil. simpl.
  destruct (decide (unit_key m0 = key)) as [Heq|Hne].
  - rewrite last_snoc. simpl. split.
    + intros [[_ ->]|[Hne _]]; [done|]. by rewrite Heq in Hne.
    + intros [= ->]. by left.
  - rewrite app_nil_r, <- IHe. split.
    + intros [[-> _]|[_ Hin]]; done.
    + intros Hin. right. split; [by intros ->|done].
Qed.

Lemma dict_in_set {V : Type} (d : list (string * V)) (k' k : string) (v : V) :
  dict_in (dict_set d k' v) k = dict_in d k || String.eqb k' k.
Proof.
  unfold dict_in. induction d as [|[k0 v0] d IH]; simpl.
  { by destruct (String.eqb k' k). }
  destruct (String.eqb k0 k') eqn:Hk0; simpl.
  - apply String.eqb_eq in Hk0 as ->.
    destruct (String.eqb k' k); [done|]. by rewrite orb_false_r.
  - destruct (String.eqb k0 k); [done|]. apply IH.
Qed.

Lemma dict_in_cons {V : Type} (d : list (string * V)) (k' k : string) (v : V) :
  dict_in ((k', v) :: d) k = String.eqb k' k || dict_in d k.
Proof. unfold dict_in. simpl. by destruct (String.eqb k' k). Qed.

Lemma switch_nodes_dict_in model_map items :
  ∀ acc fresh k,
  dict_in (switch_nodes model_map items acc fresh) k
  = dict_in acc k || dict_in items k.
Proof.
  induction items as [|[nm node] items IH]; intros acc fresh k; simpl.
  { by rewrite orb_false_r. }
  rewrite dict_in_cons.
  destruct (model_map node) as [m|]; [|destruct (_switch_default_models _ _)];
    by rewrite IH, dict_in_set, orb_assoc.
Qed.

Lemma dict_get_None {V : Type} (d : list (string * V)) (k : string) :
  dict_get d k = None ↔ k ∉ d.*1.
Proof.
  induction d as [|[k0 v0] d IH]; simpl.
  { split; [by intros _ ?%elem_of_nil|done]. }
  destruct (String.eqb k0 k) eqn:Hk.
  - apply String.eqb_eq in Hk as ->. split; [done|]. intros []. by left.
  - apply String.eqb_neq in Hk. rewrite IH, not_elem_of_cons.
    split; [by intros ?|by intros [_ ?]].
Qed.

Lemma dict_set_fresh {V : Type} (d : list (string * V)) (k : string) (v : V) :
  k ∉ d.*1 → dict_set d k v = d ++ [(k, v)].
Proof.
  induction d as [|[k0 v0] d IH]; simpl; [done|].
  intros [Hne Hk]%not_elem_of_cons.
  rewrite (proj2 (String.eqb_neq k0 k)) by done. by rewrite IH.
Qed.

Lemma switch_nodes_pointwise model_map items :
  ∀ acc fresh0 fresh,
  (fresh0 ≤ fresh)%positive →
  NoDup (acc.*1 ++ items.*1) →
  ∃ vals,
    switch_nodes model_map items acc fresh = acc ++ vals
    ∧ Forall2 (fun (e : string * NIRNode) (r : string * option Module) =>
                 r.1 = e.1
                 ∧ match model_map e.2 with
                   | Some m => r.2 = Some m
                   | None =>
                       if is_Input e.2 || is_Output e.2
                       then ∃ id, (fresh0 ≤ id)%positive
                                  ∧ r.2 = Some (Identity id)
                       else r.2 = None
                   end) items vals.
Proof.
  induction items as [|[nm node] items IH]; intros acc fresh0 fresh Hle Hnd;
    simpl.
  { exists []. by rewrite app_nil_r. }
  assert (nm ∉ acc.*1) as Hfresh.
  { apply NoDup_app in Hnd as (_ & Hdis & _). intros Hin.
    apply (Hdis _ Hin). by left. }
  assert (∀ v, NoDup ((acc ++ [(nm, v)]).*1 ++ items.*1)) as Hnd'.
  { intros v. rewrite fmap_app, <- app_assoc. done. }
  unfold _switch_default_models.
  destruct (model_map node) as [m|] eqn:Hm;
    [|destruct (is_Input node || is_Output node) eqn:Hio];
    rewrite dict_set_fresh by done.
  - destruct (IH _ fresh0 fresh Hle (Hnd' (Some m))) as (vals & -> & Hvals).
    exists ((nm, Some m) :: vals). rewrite <- app_assoc. split; [done|].
    constructor; [|done]. simpl. by rewrite Hm.
  - destruct (IH _ fresh0 (Pos.succ fresh) ltac:(lia)
                (Hnd' (Some (Identity fresh)))) as (vals & -> & Hvals).
    exists ((nm, Some (Identity fresh)) :: vals). rewrite <- app_assoc.
    split; [done|]. constructor; [|done]. simpl. rewrite Hm, Hio. eauto.
  - destruct (IH _ fresh0 fresh Hle (Hnd' None)) as (vals & -> & Hvals).
    exists ((nm, None) :: vals). rewrite <- app_assoc. split; [done|].
    constructor; [|done]. simpl. by rewrite Hm, Hio.
Qed.

Lemma count_take_lt {A : Type} (P : A → Prop) `{!∀ x, Decision (P x)}
    (l : list A) (i j : nat) (x : A) :
  i < j → l !! i = Some x → P x →
  length (filter P (take i l)) < length (filter P (take j l)).
Proof.
  revert i j. induction l as [|y l IH]; intros i j Hij Hi Hx; [done|].
  destruct j as [|j]; [lia|]. destruct i as [|i]; simpl in *.
  - injection Hi as ->. rewrite filter_cons_True by done. simpl. lia.
  - rewrite !filter_cons. specialize (IH i j ltac:(lia) Hi Hx).
    destruct (decide (P y)); simpl; lia.
Qed.

(** The objects made for the declined [Input] and [Output] nodes take their
    identities from the counter in the order of the nodes. *)
Lemma switch_nodes_ids model_map items :
  ∀ acc fresh,
  NoDup (acc.*1 ++ items.*1) →
  ∃ vals,
    switch_nodes model_map items acc fresh = acc ++ vals
    ∧ ∀ i e r, items !! i = Some e → vals !! i = Some r →
        gets_default model_map e.2 = true →
        ∃ id, r.2 = Some (Identity id)
              ∧ Pos.to_nat id
                = Pos.to_nat fresh
                  + length (filter (fun e' => gets_default model_map e'.2 = true)
                              (take i items)).
Proof.
  induction items as [|[nm node] items IH]; intros acc fresh Hnd; simpl.
  { exists []. rewrite app_nil_r. split; [done|]. by intros i e r ?. }
  assert (nm ∉ acc.*1) as Hfresh.
  { apply NoDup_app in Hnd as (_ & Hdis & _). intros Hin.
    apply (Hdis _ Hin). by left. }
  assert (∀ v, NoDup ((acc ++ [(nm, v)]).*1 ++ items.*1)) as Hnd'.
  { intros v. rewrite fmap_app, <- app_assoc. done. }
  unfold _switch_default_models.
  destruct (model_map node) as [m|] eqn:Hm;
    [|destruct (is_Input node || is_Output node) eqn:Hio];
    rewrite dict_set_fresh by done.
  - destruct (IH _ fresh (Hnd' (Some m))) as (vals & -> & Hvals).
    exists ((nm, Some m) :: vals). rewrite <- app_assoc. split; [done|].
    intros [|i] e r He Hr Hd; simpl in *.
    + injection He as <-. unfold gets_default in Hd. simpl in Hd.
      by rewrite Hm in Hd.
    + destruct (Hvals i e r He Hr Hd) as (id & Hid & Hnum).
      exists id. split; [done|]. rewrite filter_cons_False; [done|].
      unfold gets_default. simpl. by rewrite Hm.
  - destruct (IH _ (Pos.succ fresh) (Hnd' (Some (Identity fresh))))
      as (vals & -> & Hvals).
    exists ((nm, Some (Identity fresh)) :: vals). rewrite <- app_assoc.
    split; [done|].
    intros [|i] e r He Hr Hd; simpl in *.
    + injection He as <-. injection Hr as <-. exists fresh. simpl.
      split; [done|]. lia.
    + destruct (Hvals i e r He Hr Hd) as (id & Hid & Hnum).
      exists id. split; [done|]. rewrite filter_cons_True.
      * simpl. rewrite Hnum, Pos2Nat.inj_succ. lia.
      * unfold gets_default. simpl. by rewrite Hm.
  - destruct (IH _ fresh (Hnd' None)) as (vals & -> & Hvals).
    exists ((nm, None) :: vals). rewrite <- app_assoc. split; [done|].
    intros [|i] e r He Hr Hd; simpl in *.
    + injection He as <-. unfold gets_default in Hd. simpl in Hd.
      by rewrite Hm, Hio in Hd.
    + destruct (Hvals i e r He Hr Hd) as (id & Hid & Hnum).
      exists id. split; [done|]. rewrite filter_cons_False; [done|].
      unfold gets_default. simpl. by rewrite Hm, Hio.
Qed.

(** [_switch_models_with_map] keeps the names, their order and the edges of
    the IR.  A node the map knows gets the unit of the map; a node the map
    declines gets a new [Identity] when it is an [Input] or an [Output], and
    no unit at all otherwise.  New means: the identity of the object is not
    below the counter, so that it is none of the objects that were there
    before, and two such nodes never get the same object. *)
Theorem switch_models_pointwise g model_map fresh torch_graph :
  NoDup (nodes g).*1 →
  _switch_models_with_map (NIRGraph g) model_map fresh = Ok torch_graph →
  edges torch_graph = edges g
  ∧ Forall2 (fun (e : string * NIRNode) (r : string * option Module) =>
               r.1 = e.1
               ∧ match model_map e.2 with
                 | Some m => r.2 = Some m
                 | None =>
                     if is_Input e.2 || is_Output e.2
                     then ∃ id, (fresh ≤ id)%positive ∧ r.2 = Some (Identity id)
                     else r.2 = None
                 end) (nodes g) (nodes torch_graph)
  ∧ ∀ i j ei ej ri rj,
      i ≠ j →
      nodes g !! i = Some ei → nodes g !! j = Some ej →
      gets_default model_map ei.2 = true →
      gets_default model_map ej.2 = true →
      nodes torch_graph !! i = Some ri → nodes torch_graph !! j = Some rj →
      unit_key ri.2 ≠ unit_key rj.2.
Proof.
  intros Hnd [= <-]. split; [done|]. simpl. split.
  - destruct (switch_nodes_pointwise model_map (nodes g) [] fresh fresh)
      as (vals & -> & Hvals); [lia|done|done].
  - destruct (switch_nodes_ids model_map (nodes g) [] fresh)
      as (vals & -> & Hvals); [done|]. simpl.
    intros i j ei ej ri rj Hij Hei Hej Hdi Hdj Hri Hrj.
    destruct (Hvals i ei ri Hei Hri Hdi) as (idi & Hidi & Hni).
    destruct (Hvals j ej rj Hej Hrj Hdj) as (idj & Hidj & Hnj).
    rewrite Hidi, Hidj. simpl. intros [= Heq]. subst idj.
    destruct (Nat.lt_total i j) as [Hlt|[Heq|Hlt]]; [|done|].
    + pose proof (count_take_lt
                    (fun e' => gets_default model_map e'.2 = true)
                    (nodes g) i j ei Hlt Hei Hdi). lia.
    + pose proof (count_take_lt
                    (fun e' => gets_default model_map e'.2 = true)
                    (nodes g) j i ej Hlt Hej Hdj). lia.
Qed.

End Dictionaries.

(** ** Edges that lead nowhere *)

Section Dangling_edges.
Context `{Collaborators}.

Lemma add_edges_app torch_graph es1 es2 :
  ∀ g0,
  add_edges torch_graph g0 (es1 ++ es2)
  = let! g1 := add_edges torch_graph g0 es1 in add_edges torch_graph g1 es2.
Proof.
  induction es1 as [|[src dst] es1 IH]; intros g0; [done|]. simpl.
  destruct (dict_getitem _ _) as [s|]; [|done]. simpl.
  destruct (dict_getitem _ _) as [d|]; [|done]. simpl.
  destruct (add_edge g0 s d) as [g1|]; [|done]. simpl. apply IH.
Qed.

Lemma add_edges_nodes torch_graph torch_graph' es :
  nodes torch_graph = nodes torch_graph' →
  ∀ g0, add_edges torch_graph g0 es = add_edges torch_graph' g0 es.
Proof.
  intros Hnodes. induction es as [|[src dst] es IH]; intros g0; [done|]. simpl.
  rewrite Hnodes.
  destruct (dict_getitem _ _) as [s|]; [|done]. simpl.
  destruct (dict_getitem _ _) as [d|]; [|done]. simpl.
  destruct (add_edge g0 s d) as [g1|]; [|done]. simpl. apply IH.
Qed.

Lemma dict_in_false {V : Type} (d : list (string * V)) (k : string) :
  dict_in d k = false ↔ dict_get d k = None.
Proof. unfold dict_in. by destruct (dict_get d k). Qed.

(** When the edges before it have been added, an edge whose source names no
    node, neither as it is nor with [.output] appended, stops the
    reconstruction with [KeyError] on the source as it is written; so does,
    once the source has been found, a destination that names no node either
    as it is or with [.input] appended. *)
Theorem dangling_edge_KeyError torch_graph nir_nodes pre src dst post g1 :
  edges torch_graph = pre ++ (src, dst) :: post →
  _mod_nir_to_graph {| nodes := nodes torch_graph; edges := pre |} nir_nodes
  = Ok g1 →
  (dict_in (nodes torch_graph) src = false →
   dict_in (nodes torch_graph) (src +:+ ".output") = false →
   _mod_nir_to_graph torch_graph nir_nodes = Raise (KeyError src))
  ∧ (dict_in (nodes torch_graph)
       (resolved_source (nodes torch_graph) src) = true →
     dict_in (nodes torch_graph) dst = false →
     dict_in (nodes torch_graph) (dst +:+ ".input") = false →
     _mod_nir_to_graph torch_graph nir_nodes = Raise (KeyError dst)).
Proof.
  unfold _mod_nir_to_graph. simpl. intros -> Hpre.
  rewrite (add_edges_nodes _ torch_graph) in Hpre by done.
  rewrite add_edges_app, Hpre. simpl. split.
  - intros Hsrc Hout. rewrite Hsrc, Hout. simpl.
    unfold dict_getitem. by rewrite (proj1 (dict_in_false _ _) Hsrc).
  - intros Hres Hdst Hin. unfold resolved_source in Hres.
    assert ((if negb (dict_in (nodes torch_graph) src)
                && dict_in (nodes torch_graph) (src +:+ ".output")
             then src +:+ ".output" else src)
            = resolved_source (nodes torch_graph) src) as ->.
    { unfold resolved_source.
      by destruct (dict_in _ src), (dict_in _ (src +:+ _)). }
    unfold dict_getitem at 1.
    destruct (dict_get _ (resolved_source _ src)) as [s|] eqn:Hs.
    2:{ apply dict_in_false in Hs. unfold resolved_source in Hs.
        by rewrite Hs in Hres. }
    simpl. rewrite Hdst, Hin. simpl.
    unfold dict_getitem. by rewrite (proj1 (dict_in_false _ _) Hdst).
Qed.

(** [load] returns no executor for an IR with an edge one of whose endpoints
    names no node, whatever the map. *)
Theorem load_rejects_dangling_edge nir_read g model_map fresh src dst :
  (src, dst) ∈ edges g →
  (dict_in (nodes g) src = false
   ∧ dict_in (nodes g) (src +:+ ".output") = false)
  ∨ (dict_in (nodes g) dst = false
     ∧ dict_in (nodes g) (dst +:+ ".input") = false) →
  ∃ e, load nir_read (inl (NIRGraph g)) model_map fresh = Raise e.
Proof.
  intros Hedge Hdangling. unfold load, _switch_models_with_map. simpl.
  set (tg := {| nodes := switch_nodes model_map (nodes g) [] fresh;
                edges := edges g |}).
  destruct (_mod_nir_to_graph tg (nodes g)) as [graph|e] eqn:Hg;
    [|by exists e].
  exfalso. apply add_edges_resolved in Hg as (units & Hunits & _).
  simpl in Hunits.
  apply list_elem_of_lookup in Hedge as [i Hi].
  destruct (Forall2_lookup_l _ _ _ _ _ Hunits Hi) as (u & _ & Hs & Hd).
  simpl in Hs, Hd.
  assert (∀ k, dict_in (switch_nodes model_map (nodes g) [] fresh) k
               = dict_in (nodes g) k) as Hin.
  { intros k. by rewrite switch_nodes_dict_in. }
  destruct Hdangling as [[H1 H2]|[H1 H2]].
  - unfold resolved_source in Hs. rewrite !Hin, H1, H2 in Hs.
    rewrite <- Hin in H1. apply dict_in_false in H1. by rewrite H1 in Hs.
  - unfold resolved_destination in Hd. rewrite !Hin, H1, H2 in Hd.
    rewrite <- Hin in H1. apply dict_in_false in H1. by rewrite H1 in Hd.
Qed.

End Dangling_edges.

(** ** What extraction puts in the IR *)

Section Extracted_IR.
Context `{Collaborators}.

Lemma convert_edges_outgoing torch_graph ignore_dims l :
  ∀ nn ne nn' ne',
  convert_edges torch_graph ignore_dims l nn ne = Ok (nn', ne') →
  (∀ n d sh, n ∈ l → (d, sh) ∈ outgoing_nodes n → (name n, d) ∈ ne')
  ∧ (∀ k, dict_in nn k = true → dict_in nn' k = true).
Proof.
  induction l as [|n l IH]; intros nn ne nn' ne'; simpl.
  { intros [= <- <-]. split; [|done]. by intros n d sh ?%elem_of_nil. }
  intros Hrun.
  assert (∀ d sh, (d, sh) ∈ outgoing_nodes n →
            (name n, d)
            ∈ ne ++ ((fun '(destination, _) => (name n, destination))
                     <$> outgoing_nodes n)) as Hhere.
  { intros d sh Hd. apply elem_of_app. right.
    apply list_elem_of_fmap. by exists (d, sh). }
  case_bool_decide as Hsink.
  - apply bindR_Ok in Hrun as (recorded & _ & Hrun).
    apply bindR_Ok in Hrun as (out_shape & _ & Hrun).
    destruct (IH _ _ _ _ Hrun) as [Hout Hkeys].
    destruct (convert_edges_Ok _ _ _ _ _ _ _ Hrun) as (Hkeep & _). split.
    + intros m d sh [->|Hm]%elem_of_cons Hd; [|by eapply Hout].
      apply Hkeep. apply elem_of_app. left. by eapply Hhere.
    + intros k Hk. apply Hkeys. rewrite dict_in_set, Hk. done.
  - destruct (IH _ _ _ _ Hrun) as [Hout Hkeys].
    destruct (convert_edges_Ok _ _ _ _ _ _ _ Hrun) as (Hkeep & _). split.
    + intros m d sh [->|Hm]%elem_of_cons Hd; [|by eapply Hout].
      apply Hkeep. by eapply Hhere.
    + done.
Qed.

(** The IR has no edge twice, and it has an edge for every recorded
    successor of every traced node. *)
Theorem extraction_edges model model_map sample_data model_name ignored
    ignore_dims g :
  extract_nir_graph model model_map sample_data model_name ignored ignore_dims
  = Ok g →
  ∃ torch_graph,
    traced_graph model sample_data model_name ignored = Ok torch_graph
    ∧ NoDup (edges g)
    ∧ ∀ n d sh, n ∈ node_list torch_graph → (d, sh) ∈ outgoing_nodes n →
                (name n, d) ∈ edges g.
Proof.
  unfold extract_nir_graph. intros (tg & Htg & Hrun)%bindR_Ok.
  exists tg. split; [done|].
  case_bool_decide; [done|].
  apply bindR_Ok in Hrun as (input_type & _ & Hrun).
  apply bindR_Ok in Hrun as ([nn1 ne1] & _ & Hrun).
  apply bindR_Ok in Hrun as ([nn2 ne2] & Hedges & [= <-]). simpl.
  split; [apply NoDup_remove_dups|].
  intros n d sh Hn Hd. apply elem_of_remove_dups.
  by eapply (convert_edges_outgoing _ _ _ _ _ _ _ Hedges).
Qed.

Lemma add_subgraph_nodes_Ok node_name items :
  ∀ nn nn',
  add_subgraph_nodes node_name items nn = Ok nn' →
  (∀ k, dict_in nn k = true → dict_in nn' k = true)
  ∧ (∀ k v, (k, v) ∈ items → is_NIRNode v = true →
            dict_in nn' (node_name +:+ "." +:+ k) = true).
Proof.
  induction items as [|[k0 v0] items IH]; intros nn nn'; simpl.
  { intros [= <-]. split; [done|]. by intros k v ?%elem_of_nil. }
  destruct (is_NIRNode v0) eqn:Hv0.
  - intros Hrun. destruct (IH _ _ Hrun) as [Hkeys Hnew]. split.
    + intros k Hk. apply Hkeys. by rewrite dict_in_set, Hk.
    + intros k v [[= -> ->]|Hin]%elem_of_cons Hv; [|by eapply Hnew].
      apply Hkeys. by rewrite dict_in_set, String.eqb_refl, orb_true_r.
  - destruct v0 as [| | | |[nm|]]; try done. intros Hrun.
    destruct (IH _ _ Hrun) as [Hkeys Hnew]. split.
    + intros k Hk. apply Hkeys. by rewrite dict_in_set, Hk.
    + intros k v [[= -> ->]|Hin]%elem_of_cons Hv; [done|by eapply Hnew].
Qed.

Lemma convert_nodes_cons_plain model_map i n rest nn ne :
  is_NIRGraph (model_map (elem n)) = false →
  convert_nodes model_map ((i, n) :: rest) nn ne
  = convert_nodes model_map rest
      (dict_set nn (name n) (model_map (elem n)))
      (if bool_decide (i = 0)
       then let keys := (dict_set nn (name n) (model_map (elem n))).*1 in
            ne ++ zip (take (length keys - 1) keys) (drop 1 keys)
       else ne).
Proof. simpl. by destruct (model_map (elem n)). Qed.

Lemma convert_nodes_Ok model_map indexed :
  ∀ nn ne nn' ne',
  convert_nodes model_map indexed nn ne = Ok (nn', ne') →
  (∀ k, dict_in nn k = true → dict_in nn' k = true)
  ∧ (∀ e, e ∈ ne → e ∈ ne')
  ∧ ∀ i n, (i, n) ∈ indexed →
      match model_map (elem n) with
      | NIRGraph sub =>
          (∀ k v, (k, v) ∈ nodes sub → is_NIRNode v = true →
                  dict_in nn' (name n +:+ "." +:+ k) = true)
          ∧ (∀ x y, (x, y) ∈ edges sub →
                    (name n +:+ "." +:+ x, name n +:+ "." +:+ y) ∈ ne')
      | _ => dict_in nn' (name n) = true
      end.
Proof.
  induction indexed as [|[i0 n0] indexed IH]; intros nn ne nn' ne'.
  { intros [= <- <-]. repeat split; [done..|]. by intros i n ?%elem_of_nil. }
  destruct (is_NIRGraph (model_map (elem n0))) eqn:Hkind.
  - destruct (model_map (elem n0)) as [| |sub| |] eqn:Hmap; try done.
    simpl. rewrite Hmap. intros (r & Hfirst & Hrun)%bindR_Ok.
    apply bindR_Ok in Hfirst as (nn1 & Hsub & [= <-]).
    destruct (add_subgraph_nodes_Ok _ _ _ _ Hsub) as [Hkeys1 Hnew1].
    destruct (IH _ _ _ _ Hrun) as (Hkeys & Hedges & Hall).
    assert (∀ e, e ∈ ne ++ ((fun '(x, y) => (name n0 +:+ "." +:+ x,
                                            name n0 +:+ "." +:+ y))
                           <$> edges sub) → e ∈ ne') as Hedges'.
    { intros e He. apply Hedges. case_bool_decide; [|done].
      apply elem_of_app. by left. }
    split; [|split].
    + intros k Hk. by apply Hkeys, Hkeys1.
    + intros e He. apply Hedges'. apply elem_of_app. by left.
    + intros i n [[= -> ->]|Hin]%elem_of_cons; [|by eapply Hall].
      rewrite Hmap. split.
      * intros k v Hk Hv. apply Hkeys. by eapply Hnew1.
      * intros x y Hxy. apply Hedges'. apply elem_of_app. right.
        apply list_elem_of_fmap. by exists (x, y).
  - rewrite convert_nodes_cons_plain by done. intros Hrun.
    destruct (IH _ _ _ _ Hrun) as (Hkeys & Hedges & Hall).
    split; [|split].
    + intros k Hk. apply Hkeys. by rewrite dict_in_set, Hk.
    + intros e He. apply Hedges. case_bool_decide; [|done].
      apply elem_of_app. by left.
    + intros i n [[= -> ->]|Hin]%elem_of_cons; [|by eapply Hall].
      assert (dict_in nn' (name n0) = true) as Hn.
      { apply Hkeys. by rewrite dict_in_set, String.eqb_refl, orb_true_r. }
      by destruct (model_map (elem n0)).
Qed.

(** The synthesized input is joined to the first traced unit: when that
    unit is mapped to a plain IR node and is not itself named "input", the
    IR has the edge from "input" to it. *)
Theorem extraction_joins_input_to_first_unit model model_map sample_data
    model_name ignored ignore_dims g torch_graph n0 rest :
  extract_nir_graph model model_map sample_data model_name ignored ignore_dims
  = Ok g →
  traced_graph model sample_data model_name ignored = Ok torch_graph →
  node_list torch_graph = n0 :: rest →
  is_NIRGraph (model_map (elem n0)) = false →
  name n0 ≠ "input" →
  ("input", name n0) ∈ edges g.
Proof.
  unfold extract_nir_graph. intros Hrun Htg Hlist Hplain Hname.
  rewrite Htg in Hrun. simpl in Hrun. case_bool_decide; [done|].
  apply bindR_Ok in Hrun as (input_type & _ & Hrun).
  apply bindR_Ok in Hrun as ([nn1 ne1] & Hnodes & Hrun).
  apply bindR_Ok in Hrun as ([nn2 ne2] & Hedges & [= <-]). simpl.
  rewrite Hlist, imap_cons in Hnodes.
  rewrite convert_nodes_cons_plain in Hnodes by done.
  destruct (convert_nodes_Ok _ _ _ _ _ _ Hnodes) as (_ & Hmono & _).
  destruct (convert_edges_Ok _ _ _ _ _ _ _ Hedges) as (Hkeep & _).
  apply elem_of_remove_dups, Hkeep, Hmono.
  cbv zeta. cbn [dict_set].
  rewrite (proj2 (String.eqb_neq "input" (name n0))) by done.
  simpl. by left.
Qed.

End Extracted_IR.

(** ** The nodes of the IR when no unit is a subgraph *)

Section Plain_extraction.
Context `{Collaborators}.

Lemma convert_nodes_plain model_map indexed :
  ∀ nn ne nn' ne',
  Forall (fun p => is_NIRGraph (model_map (elem p.2)) = false) indexed →
  NoDup (nn.*1 ++ (name <$> indexed.*2)) →
  convert_nodes model_map indexed nn ne = Ok (nn', ne') →
  nn' = nn ++ ((fun n => (name n, model_map (elem n))) <$> indexed.*2).
Proof.
  induction indexed as [|[i0 n0] indexed IH]; intros nn ne nn' ne' Hall Hnd.
  { intros [= <- <-]. by rewrite app_nil_r. }
  apply Forall_cons in Hall as [Hplain Hall]. simpl in Hplain.
  rewrite convert_nodes_cons_plain by done.
  assert (name n0 ∉ nn.*1) as Hfresh.
  { apply NoDup_app in Hnd as (_ & Hdisj & _). intros Hin.
    apply (Hdisj _ Hin). csimpl. by left. }
  rewrite dict_set_fresh by done. intros Hrun.
  apply IH in Hrun; [|done|].
  - rewrite Hrun. csimpl. by rewrite <- app_assoc.
  - rewrite fmap_app, <- app_assoc. done.
Qed.

Lemma dict_set_tail {V : Type} (base tail : list (string * V)) (k : string)
    (v' : V) :
  k ∉ base.*1 →
  (tail = [] ∨ ∃ v, tail = [(k, v)]) →
  dict_set (base ++ tail) k v' = base ++ [(k, v')].
Proof.
  intros Hk [->|[v ->]].
  - rewrite app_nil_r. by apply dict_set_fresh.
  - induction base as [|[k0 v0] base IH]; simpl.
    + by rewrite String.eqb_refl.
    + csimpl in Hk. apply not_elem_of_cons in Hk as [Hne Hk].
      rewrite (proj2 (String.eqb_neq k0 k)) by done. by rewrite IH.
Qed.

Lemma convert_edges_nodes torch_graph ignore_dims l :
  ∀ base tail ne nn' ne',
  "output" ∉ base.*1 →
  (tail = [] ∨ ∃ v, tail = [("output", v)]) →
  convert_edges torch_graph ignore_dims l (base ++ tail) ne = Ok (nn', ne') →
  ∃ tail',
    nn' = base ++ tail'
    ∧ match last (filter (fun s => is_sink s = true) l) with
      | Some s =>
          ∃ recorded out_shape,
            module_output_types torch_graph (elem s) = Some recorded
            ∧ minus_ignored recorded ignore_dims = Ok out_shape
            ∧ tail' = [("output", Output out_shape)]
      | None => tail' = tail
      end.
Proof.
  induction l as [|n l IH]; intros base tail ne nn' ne' Hbase Htail; simpl.
  { intros [= <- <-]. by exists tail. }
  rewrite last_filter_cons.
  case_bool_decide as Hsink.
  - assert (is_sink n = true) as Hn.
    { unfold is_sink. by rewrite bool_decide_eq_true_2. }
    rewrite Hn.
    intros (recorded & Hrec & Hrun)%bindR_Ok.
    apply bindR_Ok in Hrun as (out_shape & Hshape & Hrun).
    rewrite dict_set_tail in Hrun by done.
    apply IH in Hrun as (tail' & -> & Hlast); [|done|by right; eexists].
    exists tail'. split; [done|].
    destruct (last (filter _ l)); [done|]. subst tail'.
    exists recorded, out_shape. split; [|done].
    by destruct (module_output_types torch_graph (elem n)); simplify_eq/=.
  - assert (is_sink n = false) as Hn.
    { unfold is_sink. by rewrite bool_decide_eq_false_2. }
    rewrite Hn. intros Hrun.
    apply IH in Hrun as (tail' & -> & Hlast); [|done..].
    exists tail'. split; [done|]. by destruct (last (filter _ l)).
Qed.

Lemma imap_pair_snd {A B : Type} (f : nat → B) (l : list A) :
  (imap (fun i x => (f i, x)) l).*2 = l.
Proof.
  revert f. induction l as [|x l IH]; intros f; [done|].
  rewrite imap_cons. csimpl. f_equal. apply (IH (f ∘ S)).
Qed.

(** When no traced unit is mapped to a subgraph and the units' names are
    distinct and are neither "input" nor "output", the nodes of the IR are
    exactly: "input" with the sample's shape minus the ignored dimensions,
    then the traced units in their order, each under its own name with what
    the map gives for it, then "output" if some unit has no successor. *)
Theorem extraction_plain_nodes model model_map sample_data model_name ignored
    ignore_dims g torch_graph :
  extract_nir_graph model model_map sample_data model_name ignored ignore_dims
  = Ok g →
  traced_graph model sample_data model_name ignored = Ok torch_graph →
  (∀ n, n ∈ node_list torch_graph →
        is_NIRGraph (model_map (elem n)) = false) →
  NoDup ("input" :: "output" :: (name <$> node_list torch_graph)) →
  ∃ input_type tail,
    minus_ignored (shape sample_data) ignore_dims = Ok input_type
    ∧ nodes g
      = ("input", Input input_type)
        :: ((fun n => (name n, model_map (elem n))) <$> node_list torch_graph)
        ++ tail
    ∧ match last (filter (fun s => is_sink s = true) (node_list torch_graph))
      with
      | Some s =>
          ∃ recorded out_shape,
            module_output_types torch_graph (elem s) = Some recorded
            ∧ minus_ignored recorded ignore_dims = Ok out_shape
            ∧ tail = [("output", Output out_shape)]
      | None => tail = []
      end.
Proof.
  unfold extract_nir_graph. intros Hrun Htg Hplain Hnd.
  rewrite Htg in Hrun. simpl in Hrun. case_bool_decide; [done|].
  apply bindR_Ok in Hrun as (input_type & Hin & Hrun).
  apply bindR_Ok in Hrun as ([nn1 ne1] & Hnodes & Hrun).
  apply bindR_Ok in Hrun as ([nn2 ne2] & Hedges & [= <-]). simpl.
  apply NoDup_cons in Hnd as [Hinput Hnd].
  apply NoDup_cons in Hnd as [Houtput Hnd].
  apply not_elem_of_cons in Hinput as [Hio Hinput].
  apply convert_nodes_plain in Hnodes.
  - rewrite imap_pair_snd in Hnodes. subst nn1.
    rewrite <- (app_nil_r (_ ++ _)) in Hedges.
    apply convert_edges_nodes in Hedges as (tail & -> & Hlast); [|..|by left].
    + exists input_type, tail. done.
    + csimpl. rewrite <- list_fmap_compose.
      apply not_elem_of_cons. split; [done|].
      intros (n & Hn & Hin')%list_elem_of_fmap. apply Houtput.
      apply list_elem_of_fmap. by exists n.
  - apply Forall_forall. intros [i n] (j & y & [= -> ->] & Hj)%elem_of_lookup_imap.
    apply Hplain. by eapply list_elem_of_lookup_2.
  - rewrite imap_pair_snd. csimpl. by apply NoDup_cons.
Qed.

Lemma convert_edges_recorded torch_graph ignore_dims l :
  ∀ nn ne r,
  convert_edges torch_graph ignore_dims l nn ne = Ok r →
  ∀ s, s ∈ l → is_sink s = true →
       ∃ recorded out_shape,
         module_output_types torch_graph (elem s) = Some recorded
         ∧ minus_ignored recorded ignore_dims = Ok out_shape.
Proof.
  induction l as [|n l IH]; intros nn ne r; simpl.
  { by intros _ s ?%elem_of_nil. }
  case_bool_decide as Hsink.
  - intros (recorded & Hrec & Hrun)%bindR_Ok.
    apply bindR_Ok in Hrun as (out_shape & Hshape & Hrun).
    intros s [->|Hs]%elem_of_cons Hss; [|by eapply IH].
    exists recorded, out_shape. split; [|done].
    by destruct (module_output_types torch_graph (elem n)); simplify_eq/=.
  - intros Hrun s [->|Hs]%elem_of_cons Hss; [|by eapply IH].
    unfold is_sink in Hss. by rewrite bool_decide_eq_false_2 in Hss.
Qed.

(** Extraction succeeds only if the trace has recorded an output shape for
    every unit without successor, and the ignored dimensions are within that
    shape: it looks the shape up for each of them, not only for the one whose
    shape the output node keeps. *)
Theorem extraction_needs_recorded_output_shapes model model_map sample_data
    model_name ignored ignore_dims g torch_graph s :
  extract_nir_graph model model_map sample_data model_name ignored ignore_dims
  = Ok g →
  traced_graph model sample_data model_name ignored = Ok torch_graph →
  s ∈ node_list torch_graph →
  is_sink s = true →
  ∃ recorded out_shape,
    module_output_types torch_graph (elem s) = Some recorded
    ∧ minus_ignored recorded ignore_dims = Ok out_shape.
Proof.
  unfold extract_nir_graph. intros Hrun Htg Hs Hsink.
  rewrite Htg in Hrun. simpl in Hrun. case_bool_decide; [done|].
  apply bindR_Ok in Hrun as (input_type & _ & Hrun).
  apply bindR_Ok in Hrun as ([nn1 ne1] & _ & Hrun).
  apply bindR_Ok in Hrun as ([nn2 ne2] & Hedges & _).
  by eapply convert_edges_recorded.
Qed.

End Plain_extraction.

(** ** The units in the IR *)

Section Units_in_IR.
Context `{Collaborators}.

Lemma dict_get_app {V : Type} (d1 d2 : list (string * V)) (k : string) :
  dict_get (d1 ++ d2) k
  = match dict_get d1 k with Some v => Some v | None => dict_get d2 k end.
Proof.
  induction d1 as [|[k0 v0] d1 IH]; simpl; [done|].
  by destruct (String.eqb k0 k).
Qed.

Lemma dict_get_NoDup {V : Type} (d : list (string * V)) (k : string) (v : V) :
  NoDup d.*1 → (k, v) ∈ d → dict_get d k = Some v.
Proof.
  induction d as [|[k0 v0] d IH]; csimpl; [by intros _ ?%elem_of_nil|].
  intros [Hk0 Hnd]%NoDup_cons [[= -> ->]|Hin]%elem_of_cons.
  - by rewrite String.eqb_refl.
  - destruct (String.eqb k0 k) eqn:Hk; [|by apply IH].
    apply String.eqb_eq in Hk as ->. destruct Hk0.
    apply list_elem_of_fmap. by exists (k, v).
Qed.

Lemma add_subgraph_nodes_exact node_name items :
  ∀ nn nn',
  add_subgraph_nodes node_name items nn = Ok nn' →
  NoDup (nn.*1 ++ (subgraph_entries node_name items).*1) →
  nn' = nn ++ subgraph_entries node_name items.
Proof.
  unfold subgraph_entries.
  induction items as [|[k0 v0] items IH]; intros nn nn'; csimpl.
  { intros [= <-] _. by rewrite app_nil_r. }
  destruct (is_NIRNode v0) eqn:Hv0; csimpl.
  - intros Hrun Hnd.
    assert (node_name +:+ "." +:+ k0 ∉ nn.*1) as Hfresh.
    { apply NoDup_app in Hnd as (_ & Hdis & _). intros Hin.
      apply (Hdis _ Hin). by left. }
    rewrite dict_set_fresh in Hrun by done.
    apply IH in Hrun.
    + rewrite Hrun. by rewrite <- app_assoc.
    + rewrite fmap_app, <- app_assoc. done.
  - destruct v0 as [| | | |[nm|]]; try done. csimpl. intros Hrun Hnd.
    assert (nm ∉ nn.*1) as Hfresh.
    { apply NoDup_app in Hnd as (_ & Hdis & _). intros Hin.
      apply (Hdis _ Hin). by left. }
    rewrite dict_set_fresh in Hrun by done.
    apply IH in Hrun.
    + rewrite Hrun. by rewrite <- app_assoc.
    + rewrite fmap_app, <- app_assoc. done.
Qed.

Lemma written_entries_plain model_map n :
  is_NIRGraph (model_map (elem n)) = false →
  written_entries model_map n = [(name n, model_map (elem n))].
Proof. unfold written_entries. by destruct (model_map (elem n)). Qed.

(** With keys that do not clash, the first loop appends to the dictionary
    the entries of the traced nodes, in order. *)
Lemma convert_nodes_exact model_map indexed :
  ∀ nn ne nn' ne',
  convert_nodes model_map indexed nn ne = Ok (nn', ne') →
  NoDup (nn.*1 ++ (indexed.*2 ≫= written_entries model_map).*1) →
  nn' = nn ++ (indexed.*2 ≫= written_entries model_map).
Proof.
  induction indexed as [|[i0 n0] indexed IH]; intros nn ne nn' ne'.
  { intros [= <- <-] _. by rewrite app_nil_r. }
  rewrite fmap_cons, bind_cons, fmap_app, app_assoc.
  destruct (is_NIRGraph (model_map (elem n0))) eqn:Hkind.
  - destruct (model_map (elem n0)) as [| |sub| |] eqn:Hmap; try done.
    simpl. rewrite Hmap. intros (r & Hfirst & Hrun)%bindR_Ok Hnd.
    apply bindR_Ok in Hfirst as (nn1 & Hsub & [= <-]).
    assert (written_entries model_map n0
            = subgraph_entries (name n0) (nodes sub)) as Hw.
    { unfold written_entries. by rewrite Hmap. }
    rewrite Hw in Hnd |- *.
    apply add_subgraph_nodes_exact in Hsub;
      [|by apply NoDup_app in Hnd as (? & _ & _)].
    subst nn1. apply IH in Hrun.
    + rewrite Hrun. by rewrite <- app_assoc.
    + by rewrite fmap_app.
  - rewrite convert_nodes_cons_plain by done.
    rewrite written_entries_plain by done. simpl. intros Hrun Hnd.
    assert (name n0 ∉ nn.*1) as Hfresh.
    { apply NoDup_app in Hnd as (Hnd & _ & _).
      apply NoDup_app in Hnd as (_ & Hdis & _). intros Hin.
      apply (Hdis _ Hin). by left. }
    rewrite dict_set_fresh in Hrun by done.
    apply IH in Hrun.
    + rewrite Hrun. by rewrite <- app_assoc.
    + by rewrite fmap_app.
Qed.

(** Every traced unit is in the IR, when the names under which the units
    are written do not clash with each other or with "input" and "output".
    A unit mapped to a plain IR node is there under its own name, as what the
    map gives for it.  A unit mapped to a subgraph is inlined: each of its IR
    nodes is there under [unit.node], and each of its edges between the two
    names so prefixed. *)
Theorem extraction_represents_every_unit model model_map sample_data
    model_name ignored ignore_dims g torch_graph n :
  extract_nir_graph model model_map sample_data model_name ignored ignore_dims
  = Ok g →
  traced_graph model sample_data model_name ignored = Ok torch_graph →
  NoDup ("input" :: "output"
         :: (node_list torch_graph ≫= written_entries model_map).*1) →
  n ∈ node_list torch_graph →
  match model_map (elem n) with
  | NIRGraph sub =>
      (∀ k v, (k, v) ∈ nodes sub → is_NIRNode v = true →
              dict_get (nodes g) (name n +:+ "." +:+ k) = Some v)
      ∧ (∀ x y, (x, y) ∈ edges sub →
                (name n +:+ "." +:+ x, name n +:+ "." +:+ y) ∈ edges g)
  | mapped => dict_get (nodes g) (name n) = Some mapped
  end.
Proof.
  unfold extract_nir_graph. intros Hrun Htg Hnd Hn. rewrite Htg in Hrun.
  simpl in Hrun. case_bool_decide; [done|].
  apply bindR_Ok in Hrun as (input_type & _ & Hrun).
  apply bindR_Ok in Hrun as ([nn1 ne1] & Hnodes & Hrun).
  apply bindR_Ok in Hrun as ([nn2 ne2] & Hedges & [= <-]). simpl.
  destruct (convert_nodes_Ok _ _ _ _ _ _ Hnodes) as (_ & _ & Hall).
  destruct (convert_edges_Ok _ _ _ _ _ _ _ Hedges) as (Hkeep & _).
  apply NoDup_cons in Hnd as [Hinput Hnd].
  apply NoDup_cons in Hnd as [Houtput Hnd].
  apply not_elem_of_cons in Hinput as [Hio Hinput].
  apply convert_nodes_exact in Hnodes;
    [|rewrite imap_pair_snd; csimpl; by apply NoDup_cons].
  rewrite imap_pair_snd in Hnodes. subst nn1.
  rewrite <- (app_nil_r (_ ++ _)) in Hedges.
  apply convert_edges_nodes in Hedges as (tail & -> & _);
    [|csimpl; by apply not_elem_of_cons|by left].
  assert (∀ k v, (k, v) ∈ written_entries model_map n →
            dict_get (([("input", Input input_type)]
                       ++ (node_list torch_graph
                           ≫= written_entries model_map)) ++ tail) k
            = Some v) as Hget.
  { intros k v Hkv. rewrite dict_get_app.
    rewrite (dict_get_NoDup _ k v); [done| |].
    - csimpl. by apply NoDup_cons.
    - right. apply list_elem_of_bind. by exists n. }
  apply list_elem_of_lookup in Hn as [i Hi].
  pose proof (elem_of_lookup_imap_2 pair _ _ _ Hi) as Hin.
  specialize (Hall _ _ Hin).
  unfold written_entries in Hget.
  destruct (model_map (elem n)) as [| |sub| |];
    try (apply Hget; by left).
  destruct Hall as [_ Hsubedges]. split.
  - intros k v Hk Hv. apply Hget. unfold subgraph_entries.
    apply list_elem_of_omap. exists (k, v). split; [done|]. by rewrite Hv.
  - intros x y Hxy. apply elem_of_remove_dups, Hkeep. by eapply Hsubedges.
Qed.

End Units_in_IR.

(** ** The further properties on explicit inputs *)

Section Further_explicit_inputs.
Import Examples.
Import More_examples.
#[local] Existing Instance Z_scalar.
#[local] Open Scope Z_scope.

Ltac run := vm_compute; reflexivity.

Ltac pass_of :=
  match goal with |- ?F = Ok (?res, ?log) ∧ _ =>
    assert (F = Ok (res, log)) as Hf by run
  end.

(** [with_rsynaptic]: three units, three calls. *)
Lemma one_call_per_unit_in_order_witness :
  ∃ ex res log,
    with_rsynaptic = Ok ex
    ∧ forward ex (vec [1; 2]) None = Ok (res, log)
    ∧ c_node <$> log = cached_names (execution_order ex).
Proof.
  eexists _, _, _. split; [run|]. pass_of. split; [exact Hf|].
  exact (one_call_per_unit_in_order _ _ _ _ _ Hf).
Defined.

(** [with_memory], after a state whose cache has an entry for a name that
    is not a node. *)
Lemma returned_cache_keys_witness :
  ∃ ex out st log,
    with_memory = Ok ex
    ∧ forward ex (vec [1; 2])
        (Some {| state := ∅; cache := {["ghost" := vec [9]]} |})
      = Ok ((out, st), log)
    ∧ (is_Some (cache st !! "ghost")
       ↔ "ghost" ∈ cached_names (execution_order ex)).
Proof.
  eexists _, _, _, _. split; [run|]. pass_of. split; [exact Hf|].
  exact (returned_cache_keys _ _ _ _ _ _ "ghost" Hf).
Defined.

(** [with_rsynaptic]: the hidden values under "lif" are the whole result of
    the call. *)
Lemma returned_hidden_values_from_calls_witness :
  ∃ ex out st log hs,
    with_rsynaptic = Ok ex
    ∧ forward ex (vec [1; 2]) None = Ok ((out, st), log)
    ∧ state st !! "lif" = Some hs
    ∧ ∃ n unit c visible rest,
        n ∈ execution_order ex ∧ name n = "lif" ∧ elem n = Some unit
        ∧ c ∈ log ∧ c_node c = "lif" ∧ call unit (c_args c) = Ok (c_out c)
        ∧ c_out c = VTuple (visible :: rest)
        ∧ ((rsynaptic_keeps_output n = Ok true ∧ hs = visible :: rest)
           ∨ (rsynaptic_keeps_output n = Ok false
              ∧ stateful_modules ex !! "lif" = Some true ∧ hs = rest)).
Proof.
  eexists _, _, _, _, _. split; [run|]. pass_of. split; [exact Hf|].
  match goal with |- ?L = Some ?hs ∧ _ =>
    assert (L = Some hs) as Hs by run
  end.
  split; [exact Hs|].
  exact (returned_hidden_values_from_calls _ _ _ _ _ _ _ _ Hf Hs).
Defined.

(** [with_memory]: the second call, of the unit with a hidden value. *)
Lemma returned_state_records_calls_witness :
  ∃ ex out st log c,
    with_memory = Ok ex
    ∧ forward ex (vec [1; 2]) None = Ok ((out, st), log)
    ∧ log !! 1%nat = Some c
    ∧ ∃ n keeps stateful visible hidden,
        n ∈ execution_order ex ∧ c_node c = name n
        ∧ rsynaptic_keeps_output n = Ok keeps
        ∧ (keeps = false → stateful_modules ex !! name n = Some stateful)
        ∧ recorded_by_call keeps stateful (c_out c) = Some (visible, hidden)
        ∧ cache st !! name n = Some visible
        ∧ state st !! name n = hidden.
Proof.
  eexists _, _, _, _, _. split; [run|]. pass_of. split; [exact Hf|].
  match goal with |- ?L = Some ?c ∧ _ =>
    assert (L = Some c) as Hc by run
  end.
  split; [exact Hc|].
  refine (returned_state_records_calls _ _ _ _ _ _ _ _ Hf
            (list_elem_of_lookup_2 _ _ _ Hc)).
  apply (bool_decide_unpack _). vm_compute. exact I.
Defined.

(** [dotted]: the unit of "sub.a" is registered under "sub_a". *)
Lemma forward_unregistered_name_witness :
  ∃ ex, dotted = Ok ex
        ∧ forward ex (vec [1; 2]) None = Raise (KeyError "sub.a").
Proof.
  eexists. split; [run|].
  match goal with |- forward ?ex ?x ?p = _ =>
    refine (forward_unregistered_name ex x p (take 1 (execution_order ex))
              {| name := "sub.a"; elem := Some (identity 2);
                 outgoing_nodes := [] |}
              [] _ _ _ _ _ _ _ _ _ _ _ _ _)
  end; run.
Defined.

(** [recurrent_unit]: an RSynaptic unit on the node "rec". *)
Lemma forward_rsynaptic_needs_lif_witness :
  ∃ ex, recurrent_unit = Ok ex
        ∧ forward ex (vec [1; 2]) None
          = Raise (AssertionError "this shouldnt happen..").
Proof.
  eexists. split; [run|].
  match goal with |- forward ?ex ?x ?p = _ =>
    refine (forward_rsynaptic_needs_lif ex x p (take 1 (execution_order ex))
              {| name := "rec"; elem := Some (rsynaptic 2);
                 outgoing_nodes := [] |}
              [] _ _ _ _ _ _ _ _ _ _ _ _ _)
  end; run.
Defined.

(** [with_failure]: the unit of "bad" raises. *)
Lemma forward_unit_error_witness :
  ∃ ex, with_failure = Ok ex
        ∧ forward ex (vec [1; 2]) None = Raise RuntimeError.
Proof.
  eexists. split; [run|].
  match goal with |- forward ?ex ?x ?p = _ =>
    refine (forward_unit_error ex x p (take 1 (execution_order ex))
              {| name := "bad"; elem := Some (failing 2);
                 outgoing_nodes := [] |}
              [] _ _ _ _ _ _ _ _ _ _ _)
  end; run.
Defined.

(** [with_memory], after two states that differ under a name that is not a
    node. *)
Lemma forward_reads_only_its_nodes_witness :
  ∃ ex, with_memory = Ok ex
        ∧ forward ex (vec [1; 2])
            (Some {| state := {["lif" := [vec [3; 4]]]}; cache := ∅ |})
          = forward ex (vec [1; 2])
              (Some {| state := {["lif" := [vec [3; 4]]; "ghost" := [vec [5]]]};
                       cache := {["ghost" := vec [6]]} |}).
Proof.
  eexists. split; [run|].
  apply forward_reads_only_its_nodes.
  - intros n Hn. vm_compute in Hn.
    repeat (apply elem_of_cons in Hn as [->|Hn]);
      try (by apply elem_of_nil in Hn); run.
  - intros n p Hn Hp. vm_compute in Hn.
    repeat (apply elem_of_cons in Hn as [->|Hn]);
      try (by apply elem_of_nil in Hn);
      vm_compute in Hp;
      repeat (apply elem_of_cons in Hp as [->|Hp]);
      try (by apply elem_of_nil in Hp); run.
Defined.

(** The graph of [dotted]: "sub.a" is registered as "sub_a". *)
Lemma registered_units_witness :
  ∃ ex stateful,
    dotted = Ok ex
    ∧ @instantiate_modules _ no_trace (graph ex) = Ok stateful
    ∧ (is_Some (stateful !! "sub_a")
       ↔ ∃ unit nm, (Some unit, nm) ∈ module_names (graph ex)
                    ∧ dots_to_underscores nm = "sub_a").
Proof.
  eexists _, _. split; [run|].
  match goal with |- ?L = Ok ?s ∧ _ => assert (L = Ok s) as Hs by run end.
  split; [exact Hs|].
  exact (proj1 (@registered_units _ no_trace _ _ Hs) "sub_a").
Defined.

(** An RSynaptic unit with [init_hidden = False]. *)
Lemma rsynaptic_registration_witness :
  _is_module_stateful (rsynaptic 2)
  = rsynaptic_keeps_output
      {| name := "lif"; elem := Some (rsynaptic 2); outgoing_nodes := [] |}.
Proof. apply rsynaptic_registration; run. Defined.

(** [small_ir] with a map that knows one of its nodes; its [Input] and its
    [Output] are declined. *)
Lemma switch_models_pointwise_witness :
  ∃ torch_graph,
    _switch_models_with_map (NIRGraph small_ir) knows_7 20 = Ok torch_graph
    ∧ edges torch_graph = edges small_ir
    ∧ Forall2 (fun (e : string * NIRNode) (r : string * option Module) =>
                 r.1 = e.1
                 ∧ match knows_7 e.2 with
                   | Some m => r.2 = Some m
                   | None =>
                       if is_Input e.2 || is_Output e.2
                       then ∃ id, (20 ≤ id)%positive
                                  ∧ r.2 = Some (Identity id)
                       else r.2 = None
                   end) (nodes small_ir) (nodes torch_graph)
    ∧ ∀ i j ei ej ri rj,
        i ≠ j →
        nodes small_ir !! i = Some ei → nodes small_ir !! j = Some ej →
        gets_default knows_7 ei.2 = true →
        gets_default knows_7 ej.2 = true →
        nodes torch_graph !! i = Some ri → nodes torch_graph !! j = Some rj →
        unit_key ri.2 ≠ unit_key rj.2.
Proof.
  eexists. split; [run|].
  apply switch_models_pointwise; [|run].
  apply (bool_decide_unpack _). vm_compute. exact I.
Defined.

(** [dangling_ir]: the edge from "ghost". *)
Lemma dangling_edge_KeyError_witness :
  ∃ torch_graph,
    _switch_models_with_map (NIRGraph dangling_ir) knows_7 20 = Ok torch_graph
    ∧ @_mod_nir_to_graph _ no_trace torch_graph (nodes dangling_ir)
      = Raise (KeyError "ghost").
Proof.
  eexists. split; [run|].
  refine (proj1 (@dangling_edge_KeyError _ no_trace _ _ [("input", "affine")]
                   "ghost" "output" [] _ _ _) _ _); run.
Defined.

Lemma load_rejects_dangling_edge_witness :
  ∃ e, @load _ no_trace (fun _ => Raise RuntimeError)
         (inl (NIRGraph dangling_ir)) knows_7 20 = Raise e.
Proof.
  apply (@load_rejects_dangling_edge _ no_trace _ _ _ _ "ghost" "output").
  - apply (bool_decide_unpack _). vm_compute. exact I.
  - left. split; run.
Defined.

(** [chain], traced as a -> b. *)
Lemma extraction_edges_witness :
  ∃ g, @extract_nir_graph _ (collaborators (Ok chain)) model leaf_of sample
         (Some "model") None (Some [0]) = Ok g
       ∧ ∃ torch_graph,
           @traced_graph _ (collaborators (Ok chain)) model sample
             (Some "model") None = Ok torch_graph
           ∧ NoDup (edges g)
           ∧ ∀ n d sh, n ∈ node_list torch_graph →
                       (d, sh) ∈ outgoing_nodes n → (name n, d) ∈ edges g.
Proof.
  eexists. split; [run|].
  apply (@extraction_edges _ (collaborators (Ok chain)) model leaf_of sample
           (Some "model") None (Some [0])).
  run.
Defined.

(** [one_block], whose unit is mapped to a subgraph of two nodes. *)
Lemma extraction_represents_every_unit_witness :
  ∃ g, @extract_nir_graph _ (collaborators (Ok one_block)) model to_subgraph
         sample (Some "model") None None = Ok g
       ∧ (∀ k v, (k, v) ∈ [("w", Leaf 1); ("r", Leaf 2)] →
                 is_NIRNode v = true →
                 dict_get (nodes g) ("block" +:+ "." +:+ k) = Some v)
       ∧ (∀ x y, (x, y) ∈ [("w", "r")] →
                 ("block" +:+ "." +:+ x, "block" +:+ "." +:+ y) ∈ edges g).
Proof.
  eexists. split; [run|].
  refine (@extraction_represents_every_unit _ (collaborators (Ok one_block))
            model to_subgraph sample (Some "model") None None _ one_block
            (traced_node "block" 1 []) _ _ _ _); [run|run| |].
  - apply (bool_decide_unpack _). vm_compute. exact I.
  - apply list_elem_of_singleton. reflexivity.
Defined.

Lemma extraction_joins_input_to_first_unit_witness :
  ∃ g, @extract_nir_graph _ (collaborators (Ok chain)) model leaf_of sample
         (Some "model") None (Some [0]) = Ok g
       ∧ ("input", "a") ∈ edges g.
Proof.
  eexists. split; [run|].
  refine (@extraction_joins_input_to_first_unit _ (collaborators (Ok chain))
            model leaf_of sample (Some "model") None (Some [0]) _ chain
            (traced_node "a" 1 [("b", [1; 4]%nat)]) [traced_node "b" 2 []]
            _ _ _ _ _); [run|run|run|run|done].
Defined.

(** [fan_out]: three plain units, the last of them without successor. *)
Lemma extraction_plain_nodes_witness :
  ∃ g, @extract_nir_graph _ (collaborators (Ok fan_out)) model leaf_of sample
         (Some "model") None (Some [0]) = Ok g
       ∧ ∃ input_type tail,
           minus_ignored (shape sample) (Some [0]) = Ok input_type
           ∧ nodes g
             = ("input", Input input_type)
               :: ((fun n => (name n, leaf_of (elem n))) <$> node_list fan_out)
               ++ tail
           ∧ match last (filter (fun s => is_sink s = true)
                           (node_list fan_out)) with
             | Some s =>
                 ∃ recorded out_shape,
                   module_output_types fan_out (elem s) = Some recorded
                   ∧ minus_ignored recorded (Some [0]) = Ok out_shape
                   ∧ tail = [("output", Output out_shape)]
             | None => tail = []
             end.
Proof.
  eexists. split; [run|].
  apply (@extraction_plain_nodes _ (collaborators (Ok fan_out))
           model leaf_of sample (Some "model") None (Some [0]) _ fan_out).
  - run.
  - run.
  - done.
  - apply (bool_decide_unpack _). vm_compute. exact I.
Defined.

(** [fan_out]: the unit "b", whose shape the output node does not keep. *)
Lemma extraction_needs_recorded_output_shapes_witness :
  ∃ g, @extract_nir_graph _ (collaborators (Ok fan_out)) model leaf_of sample
         (Some "model") None (Some [0]) = Ok g
       ∧ ∃ recorded out_shape,
           module_output_types fan_out (Some (identity 2)) = Some recorded
           ∧ minus_ignored recorded (Some [0]) = Ok out_shape.
Proof.
  eexists. split; [run|].
  refine (@extraction_needs_recorded_output_shapes _
            (collaborators (Ok fan_out)) model leaf_of sample (Some "model")
            None (Some [0]) _ fan_out (traced_node "b" 2 []) _ _ _ _);
    [run|run| |run].
  apply elem_of_cons. right. apply elem_of_cons. by left.
Defined.

End Further_explicit_inputs.
